(** * node-libxl: the libxl provisioning script and the asynchronous Book API

    A shallow embedding of two parts of the binding:

    - the build-time provisioning script (archive extraction, license
      search, generation of [src/api_key.h]), in [Module Install], and
      the helpers of its FTP download, in [Module Downloader];
    - the constructor and the asynchronous methods of [Book]
      ([src/book.cc]), in [Module BookCc], and their synchronous
      counterparts, in [Module BookSync].

    JavaScript values are modelled as far as the script observes them
    (truthiness, string conversion, property reads); the file system, the
    platform and child processes are inputs collected in a [World]. *)

From Stdlib Require Import String Ascii List ZArith Bool Arith Lia.
Import ListNotations.

Set Warnings "-register-all".

Open Scope string_scope.

(** ** JavaScript values, as the provisioning script observes them *)

Module Js.

(** The line feed written ['\n'] in the script. *)
Definition LF : string := String (ascii_of_nat 10) EmptyString.

(** A value produced by [JSON.parse], or read off such a value.  A number
    is identified by its [ToString] rendering: both zeros render as [0]
    and [JSON.parse] yields no NaN, so the rendering also fixes the
    truthiness.  [VNative] stands for a built-in function object, which a
    read of an inherited property can return. *)
Inductive value : Type :=
| VUndefined
| VNull
| VBool (b : bool)
| VNum (repr : string)
| VStr (s : string)
| VArr (items : list value)
| VObj (fields : list (string * value))
| VNative (name : string).

(** [ToBoolean]: what [if (!v)] tests. *)
Definition truthy (v : value) : bool :=
  match v with
  | VUndefined | VNull => false
  | VBool b => b
  | VNum r => negb (r =? "0")
  | VStr s => negb (s =? "")
  | VArr _ | VObj _ | VNative _ => true
  end.

(** Own property of a parsed object: the first binding of the name. *)
Fixpoint own (k : string) (fields : list (string * value)) : option value :=
  match fields with
  | [] => None
  | (k', v) :: rest => if k' =? k then Some v else own k rest
  end.

(** What ['...' + v] appends: [ToPrimitive] followed by [ToString].
    [None] is the TypeError of the conversion.  An object takes
    [valueOf] and [toString] from [Object.prototype] unless it has members
    of these names itself; [JSON.parse] yields no function, so an own
    member is never callable and is passed over.  The inherited [valueOf]
    returns the object, which is no primitive, so the outcome rests on
    [toString] alone: the inherited one gives [[object Object]], and an
    object with an own [toString] member cannot be converted.  An array
    joins the conversions of its elements with commas, [undefined] and
    [null] counting as empty. *)
Fixpoint to_string (v : value) : option string :=
  match v with
  | VUndefined => Some "undefined"
  | VNull => Some "null"
  | VBool true => Some "true"
  | VBool false => Some "false"
  | VNum r => Some r
  | VStr s => Some s
  | VArr items =>
      (fix join (l : list value) : option string :=
         match l with
         | [] => Some ""
         | x :: rest =>
             match match x with
                   | VUndefined | VNull => Some ""
                   | _ => to_string x
                   end
             with
             | None => None
             | Some elem =>
                 match rest with
                 | [] => Some elem
                 | _ :: _ =>
                     match join rest with
                     | Some tail => Some (elem ++ "," ++ tail)
                     | None => None
                     end
                 end
             end
         end) items
  | VObj fields =>
      match own "toString" fields with
      | Some _ => None
      | None => Some "[object Object]"
      end
  | VNative n => Some ("function " ++ n ++ "() { [native code] }")
  end.

(** [v[k]] for the property names the script reads ([keys], [windows],
    [mac], [linux], [licensee]).  [None] is the TypeError raised by a read
    on [undefined] or [null].  Of these names only [keys] is inherited,
    by arrays ([Array.prototype.keys]). *)
Definition get (v : value) (k : string) : option value :=
  match v with
  | VUndefined | VNull => None
  | VObj fields =>
      Some match own k fields with Some x => x | None => VUndefined end
  | VArr _ => Some (if k =? "keys" then VNative "keys" else VUndefined)
  | VBool _ | VNum _ | VStr _ | VNative _ => Some VUndefined
  end.

(** [k in v] for the name [licensee]; [None] is the TypeError raised when
    the right operand is not an object. *)
Definition has_property (k : string) (v : value) : option bool :=
  match v with
  | VObj fields =>
      Some match own k fields with Some _ => true | None => false end
  | VArr _ | VNative _ => Some false
  | VUndefined | VNull | VBool _ | VNum _ | VStr _ => None
  end.

(** [s.split(sep)] for a one-character separator. *)
Fixpoint split (sep : ascii) (s : string) : list string :=
  match s with
  | EmptyString => [EmptyString]
  | String c rest =>
      if Ascii.eqb c sep then EmptyString :: split sep rest
      else match split sep rest with
           | [] => [String c EmptyString]
           | h :: t => String c h :: t
           end
  end.

(** The relational operators on strings compare code units
    lexicographically; on the ASCII text of version numbers that is the
    order of the characters' codes. *)
Definition str_gt (a b : string) : bool := String.ltb b a.
Definition str_lt (a b : string) : bool := String.ltb a b.

End Js.

(** ** The provisioning script *)

Module Install.

Import Js.

(** *** The archive comparator of [download] *)

(** A decoded directory entry, as built by [decodeDirectoryEntry]. *)
Record archive : Type := {
  file : string;
  system : string;
  version : string;
  suffix : string
}.

Definition decodeVersion (f : archive) : list string :=
  split "." (version f).

Definition cmp (a b : string) : Z :=
  if str_gt a b then (-1)%Z
  else if str_lt a b then 1%Z
  else 0%Z.

(** The [for] loop of [compareFiles]: [i] is the loop index and [todo] the
    number of iterations left; [None] when the loop runs to its end. *)
Fixpoint compare_loop (v1 v2 : list string) (i todo : nat) : option Z :=
  match todo with
  | O => None
  | S todo' =>
      let partialResult := cmp (nth i v1 "") (nth i v2 "") in
      if (partialResult =? 0)%Z then compare_loop v1 v2 (S i) todo'
      else Some partialResult
  end.

Definition compareFiles (file1 file2 : archive) : Z :=
  let v1 := decodeVersion file1 in
  let v2 := decodeVersion file2 in
  let nibbles := Nat.min (length v1) (length v2) in
  match compare_loop v1 v2 0 nibbles with
  | Some partialResult => partialResult
  | None => if (nibbles <? length v1)%nat then (-1)%Z else 1%Z
  end.

(** The versions agree on every component both of them have. *)
Definition agree_on_common (v1 v2 : list string) : bool :=
  forallb (fun i => nth i v1 "" =? nth i v2 "")
          (seq 0 (Nat.min (length v1) (length v2))).

Definition lin_archive (v : string) : archive :=
  {| file := "libxl-lin-" ++ v ++ ".tar.gz";
     system := "lin"; version := v; suffix := "tar.gz" |}.

(** *** Paths, the world and the effects of the script *)

(** A path, by its segments: relative to the working directory, or
    absolute (below the root of the file system or drive). *)
Inductive path : Type :=
| Rel (segs : list string)
| Abs (segs : list string).

(** [path.join(p, name)] for a plain file or directory name. *)
Definition join (p : path) (name : string) : path :=
  match p with
  | Rel segs => Rel (segs ++ [name])
  | Abs segs => Abs (segs ++ [name])
  end.

(** What the script does to its environment, in program order. *)
Inductive event : Type :=
| Log (msg : string)
| MkdirSync (p : path)
| Spawn (cmd : string) (args : list value)
| RenameSync (src dst : path)
| WriteFileSync (p : path) (data : string)
| FtpConnect (host : string).

(** How a spawned child process ends: [spawn] throws, the child emits
    [error] (for which the script registers no listener), or it emits
    [close] with an exit code (a child killed by a signal closes with no
    code, which [execute] treats like any code other than 0). *)
Inductive child : Type :=
| SpawnThrows
| EmitsError
| Closes (code : Z).

(** How the process ends before the end of the script. *)
Inductive status : Type :=
| Exit (code : Z)
| Uncaught
| OutOfFuel.

(** The environment the script runs in. *)
Record World : Type := {
  (** [os.platform()] *)
  platform : string;
  (** the root of absolute paths, [/] or a drive *)
  root : string;
  (** [path.resolve(__dirname)], segments below the root *)
  dirname : list string;
  (** [fs.existsSync] *)
  existsSync : path -> bool;
  (** [fs.readdirSync] while the script's main body runs; [None]: throws *)
  readdirSync : path -> option (list string);
  (** [fs.readdirSync(dependencyDir)] once the extractor has closed *)
  extracted : option (list string);
  (** [JSON.parse(fs.readFileSync(p, 'utf-8'))]; [None]: either throws *)
  parse_license : path -> option value;
  (** whether this [mkdirSync], [renameSync] or [writeFileSync] throws *)
  throws : event -> bool;
  (** the fate of the child started by [spawn(cmd, args)] *)
  spawned : string -> list value -> child
}.

(** A run of script code: it extends the trace of events and either goes
    on with a value or ends the process. *)
Inductive result (A : Type) : Type :=
| Next (a : A) (tr : list event)
| Halt (st : status) (tr : list event).

Arguments Next {A} a tr.
Arguments Halt {A} st tr.

Definition script (A : Type) : Type := list event -> result A.

Definition ret {A : Type} (a : A) : script A := fun tr => Next a tr.

Definition bind {A B : Type} (m : script A) (k : A -> script B) : script B :=
  fun tr =>
    match m tr with
    | Next a tr' => k a tr'
    | Halt st tr' => Halt st tr'
    end.

Notation "x <- m ;; k" := (bind m (fun x => k))
  (at level 61, m at next level, right associativity).
Notation "m ;; k" := (bind m (fun _ => k))
  (at level 61, right associativity).

Definition trace {A : Type} (r : result A) : list event :=
  match r with
  | Next _ tr => tr
  | Halt _ tr => tr
  end.

Definition console_log (msg : string) : script unit :=
  fun tr => Next tt (tr ++ [Log msg]).

Definition process_exit {A : Type} (code : Z) : script A :=
  fun tr => Halt (Exit code) tr.

Definition throw {A : Type} : script A :=
  fun tr => Halt Uncaught tr.

(** A value whose computation may raise. *)
Definition try {A : Type} (o : option A) : script A :=
  match o with
  | Some a => ret a
  | None => throw
  end.

Definition when (b : bool) (m : script unit) : script unit :=
  if b then m else ret tt.

Definition is_ftp (e : event) : bool :=
  match e with
  | FtpConnect _ => true
  | _ => false
  end.

Definition is_write (e : event) : bool :=
  match e with
  | WriteFileSync _ _ => true
  | _ => false
  end.

(** *** The script *)

Definition dependencyArchiveDir : path := Rel ["deps_archive"].
Definition dependencyDir : path := Rel ["deps"].
Definition libxlDir : path := join dependencyDir "libxl".
Definition ftpHost : string := "xlware.com".
Definition licenseFilename : string := "libxl-license.json".

(** The double quote inside the generated header. *)
Definition DQ : string := String (ascii_of_nat 34) EmptyString.

Section Script.

Variable w : World.

Definition isWin : bool := prefix "win" (platform w).
Definition isMac : bool := prefix "darwin" (platform w).

(** [path.sep] *)
Definition sep : string :=
  if isWin then String (ascii_of_nat 92) EmptyString else "/".

(** A path as the string the script holds. *)
Definition show (p : path) : string :=
  match p with
  | Rel segs => String.concat sep segs
  | Abs segs => root w ++ String.concat sep segs
  end.

(** A string or [null], as [finder] returns it. *)
Definition show_opt (o : option path) : value :=
  match o with
  | Some p => VStr (show p)
  | None => VNull
  end.

(** A call of [mkdirSync], [renameSync] or [writeFileSync]. *)
Definition fs_call (e : event) : script unit :=
  fun tr => if throws w e then Halt Uncaught (tr ++ [e])
            else Next tt (tr ++ [e]).

(** The synchronous part of [download]: the handlers it registers run on
    events of the FTP client. *)
Definition download : script unit :=
  console_log ("Connecting to ftp://" ++ ftpHost ++ "...") ;;
  fun tr => Next tt (tr ++ [FtpConnect ftpHost]).

(** [execute]: starts the child and returns what the event loop runs when
    the child ends. *)
Definition execute (cmd : string) (args : list value)
    (callback : script unit) : script (script unit) :=
  fun tr =>
    let tr' := (tr ++ [Spawn cmd args])%list in
    match spawned w cmd args with
    | SpawnThrows => Halt Uncaught tr'
    | EmitsError => Next throw tr'
    | Closes code =>
        Next (if (code =? 0)%Z then callback else process_exit 1) tr'
    end.

Definition extractor (file : option path) (target : path)
    (callback : script unit) : script (script unit) :=
  name <- try (to_string (show_opt file)) ;;
  console_log ("Extracting " ++ name ++ " ...") ;;
  if isWin then
    execute (show (Rel ["tools"; "7zip"; "7za.exe"]))
            [VStr "x"; show_opt file; VStr ("-o" ++ show dependencyDir)]
            callback
  else
    execute "tar"
            [VStr "-C"; VStr (show dependencyDir); VStr "--no-same-owner";
             VStr "-zxf"; show_opt file]
            callback.

(** [finder], given the listing [fs.readdirSync(dir)] returns. *)
Definition finder (listing : option (list string)) (dir : path)
    (pattern : string -> bool) : script (option path) :=
  files <- try listing ;;
  ret (option_map (join dir) (find pattern files)).

(** The callback passed to [extractor]. *)
Definition rename_extracted : script unit :=
  extractedDir <- finder (extracted w) dependencyDir (prefix "libxl") ;;
  name <- try (to_string (show_opt extractedDir)) ;;
  console_log ("Renaming " ++ name ++ " to " ++ show libxlDir ++ " ...") ;;
  match extractedDir with
  | Some dir => fs_call (RenameSync dir libxlDir)
  | None => throw
  end.

(** The first statement of the script; its value is the handler left
    pending for the event loop. *)
Definition provision_library : script (script unit) :=
  if existsSync w libxlDir then
    console_log "Libxl already downloaded, nothing to do" ;;
    ret (ret tt)
  else
    when (negb (existsSync w dependencyDir))
         (fs_call (MkdirSync dependencyDir)) ;;
    let suffix := if isWin then "win" else if isMac then "mac" else "lin" in
    let searchString := "libxl-" ++ suffix in
    selectedArchive <- finder (readdirSync w dependencyArchiveDir)
                              dependencyArchiveDir (prefix searchString) ;;
    extractor selectedArchive dependencyDir rename_extracted.

(** [path.resolve(path.join(searchDir, '..'))] *)
Definition parent (searchDir : list string) : list string :=
  removelast searchDir.

(** One iteration of the search loop: the next [searchDir], or the
    [licensePath] that ends the loop. *)
Definition search_body (searchDir : list string)
    : script (list string + path) :=
  let parentDir := parent searchDir in
  if existsSync w (join (Abs searchDir) licenseFilename) then
    ret (inr (join (Abs searchDir) licenseFilename))
  else
    when (if list_eq_dec string_dec parentDir searchDir then true else false)
         (console_log "Cannot locate libxl-license.json; terminating" ;;
          process_exit 1) ;;
    ret (inl parentDir).

(** The [while (!licensePath)] loop, run for at most [fuel] iterations. *)
Fixpoint search_loop (fuel : nat) (searchDir : list string) : script path :=
  match fuel with
  | O => fun tr => Halt OutOfFuel tr
  | S fuel' =>
      r <- search_body searchDir ;;
      match r with
      | inl searchDir' => search_loop fuel' searchDir'
      | inr licensePath => ret licensePath
      end
  end.

(** The name of the key the platform selects, for reference:
    [select_license] below follows the three branches of the script. *)
Definition key_name : string :=
  if isWin then "windows" else if isMac then "mac" else "linux".

Definition select_license (licenses : value) : script value :=
  if isWin then
    keys <- try (get licenses "keys") ;; try (get keys "windows")
  else if isMac then
    keys <- try (get licenses "keys") ;; try (get keys "mac")
  else
    keys <- try (get licenses "keys") ;; try (get keys "linux").

(** The text of the header; [None] when the licensee or the key cannot
    be converted to a string, and the concatenation throws. *)
Definition apiKeyFileContents (licensee license : value) : option string :=
  match to_string licensee, to_string license with
  | Some name, Some key =>
      Some ("#define INCLUDE_API_KEY 1" ++ LF ++
            "#define API_KEY_NAME " ++ DQ ++ name ++ DQ ++ LF ++
            "#define API_KEY_KEY " ++ DQ ++ key ++ DQ ++ LF)
  | _, _ => None
  end.

Definition api_key_h : path := join (join (Abs (dirname w)) "src") "api_key.h".

(** The script from the license search to the write of the header. *)
Definition apply_license (fuel : nat) : script unit :=
  licensePath <- search_loop fuel (dirname w) ;;
  console_log ("Applying licenses from " ++ DQ ++ show licensePath ++ DQ) ;;
  licenses <- try (parse_license w licensePath) ;;
  license <- select_license licenses ;;
  when (negb (truthy license))
       (console_log ("Cannot find the license key appropriate for this "
                     ++ "platform in libxl-license.json") ;;
        process_exit 1) ;;
  has <- try (has_property "licensee" licenses) ;;
  when (negb has)
       (console_log "Must specify a licensee in libxl-license.json") ;;
  licensee <- try (get licenses "licensee") ;;
  contents <- try (apiKeyFileContents licensee license) ;;
  fs_call (WriteFileSync api_key_h contents).

(** The directories the search may visit from [dir]: the first [n]
    segments of [dir] for [n] down to [0], nearest first. *)
Fixpoint ancestors_from (n : nat) (dir : list string) : list (list string) :=
  match n with
  | O => [firstn 0 dir]
  | S n' => firstn n dir :: ancestors_from n' dir
  end.

Definition ancestors (dir : list string) : list (list string) :=
  ancestors_from (length dir) dir.

(** The license file of the nearest directory, from [dir] upwards, that
    has one: what the search is to find. *)
Definition locate (dir : list string) : option path :=
  option_map (fun d => join (Abs d) licenseFilename)
    (find (fun d => existsSync w (join (Abs d) licenseFilename))
          (ancestors dir)).

(** The script's main body: everything before the event loop takes over. *)
Definition main_body (fuel : nat) : script (script unit) :=
  pending <- provision_library ;;
  apply_license fuel ;;
  ret pending.

(** The whole run: the script's main body, then the event loop with the
    handler the extractor left pending. *)
Definition install (fuel : nat) : result unit :=
  (pending <- main_body fuel ;; pending) [].

End Script.

(** An event that leaves the dependency directory as it is: console
    output, or the write of the generated header. *)
Definition leaves_deps_alone (w : World) (e : event) : Prop :=
  match e with
  | Log _ => True
  | WriteFileSync p _ => p = api_key_h w
  | MkdirSync _ | Spawn _ _ | RenameSync _ _ | FtpConnect _ => False
  end.

(** The [suffix] the script derives from the platform. *)
Definition archive_suffix (w : World) : string :=
  if isWin w then "win" else if isMac w then "mac" else "lin".

(** The child process [extractor] starts for an archive. *)
Definition extraction (w : World) (archive : path) : event :=
  if isWin w then
    Spawn (show w (Rel ["tools"; "7zip"; "7za.exe"]))
          [VStr "x"; VStr (show w archive);
           VStr ("-o" ++ show w dependencyDir)]
  else
    Spawn "tar"
          [VStr "-C"; VStr (show w dependencyDir); VStr "--no-same-owner";
           VStr "-zxf"; VStr (show w archive)].

End Install.

(** ** The generated header as the C++ compiler reads it *)

Module ApiKeyH.

Import Js.




















End ApiKeyH.

(** ** [src/book.cc]: the constructor and the asynchronous methods *)

Module BookCc.

(** A value handed to the native layer or to a JavaScript callback. *)
Inductive jsvalue : Type :=
| Undefined
| Error (message : string)
| Integer (n : Z)
| Buffer (data : list Byte.byte)
| Text (s : string)
| Other.

(** The argument list of one call of a callback. *)
Definition argv : Type := list jsvalue.

(** Argument [i] as the callee reads it: a missing one reads as
    [undefined]. *)
Definition argument (i : nat) (args : argv) : jsvalue := nth i args Undefined.

(** The interface of the native library the binding forwards to
    ([libxl::Book] and the two factory functions), over the library's own
    state [B].  [saveRaw] and [getPicture] return their out-parameters
    next to their result; a factory returns [None] for a null pointer. *)
Class Libxl (B : Type) : Type := {
  xlCreateBook : option B;
  xlCreateXMLBook : option B;
  setLocale : string -> B -> B;
  setKey : string -> string -> B -> B;
  load : string -> B -> bool * B;
  save : string -> B -> bool * B;
  saveRaw : B -> bool * list Byte.byte * B;
  loadRaw : list Byte.byte -> B -> bool * B;
  getPicture : Z -> B -> Z * list Byte.byte * B;
  addPicture : string -> B -> Z * B;
  addPicture2 : list Byte.byte -> B -> Z * B;
  errorMessage : B -> string;
  PICTURETYPE_ERROR : Z
}.

Section Book.

Context {B : Type} {libxl : Libxl B}.

(** The constants of [book.h]. *)
Variables BOOK_TYPE_XLS BOOK_TYPE_XLSX : Z.


(** What a method call does: throw, or return (the receiver, or the new
    object). *)
Inductive completion (A : Type) : Type :=
| ThrowTypeError (message : string)
| ThrowError (message : string)
| Return (a : A).

Arguments ThrowTypeError {A} message.
Arguments ThrowError {A} message.
Arguments Return {A} a.


(** *** Asynchronous workers *)

(** How [Execute] ends: with an error message set, or with the members it
    has filled in. *)
Inductive executed (M : Type) : Type :=
| Raised (message : string)
| Done (members : M).

Arguments Raised {M} message.
Arguments Done {M} members.

(** A worker class: the members [Execute] fills in, [Execute] itself on
    the wrapped book, and the calls [HandleOKCallback] makes on the
    callback. *)
Record Worker : Type := {
  members : Type;
  Execute : B -> executed members * B;
  HandleOKCallback : members -> list argv
}.

(** Modelled from the spec: the base class [AsyncWorker<Book>] of
    [async_worker.h], which is not among the sources; [book.cc] only
    derives from it.  Following the spec, the error of the native library
    is captured as a string, a worker without an override invokes the
    callback once with no argument, and an error is surfaced in the
    callback's first argument. *)
Definition RaiseLibxlError {M : Type} (that : B) : executed M :=
  Raised (errorMessage that).

(** Modelled from the spec: the inherited [HandleOKCallback] of
    [async_worker.h], one call with no argument. *)
Definition default_HandleOKCallback {M : Type} (_ : M) : list argv := [[]].

(** Modelled from the spec: the inherited [HandleErrorCallback] of
    [async_worker.h], one call with the captured error. *)
Definition HandleErrorCallback (message : string) : list argv :=
  [[Error message]].

(** Modelled from the spec: the completion step of [async_worker.h], run
    on the event loop once [Execute] has returned. *)
Definition WorkComplete (wk : Worker) (r : executed (members wk))
    : list argv :=
  match r with
  | Raised message => HandleErrorCallback message
  | Done m => HandleOKCallback wk m
  end.

(** Modelled from the spec: a queued worker from [Execute] to the end of
    its completion step, with the calls made on the callback and the
    state the native library is left in. *)
Definition run (wk : Worker) (that : B) : list argv * B :=
  let (r, that') := Execute wk that in (WorkComplete wk r, that').

(** The [Worker] class of [Book::Load]. *)
Definition Load_Worker (filename : string) : Worker := {|
  members := unit;
  Execute that :=
    let (ok, that') := load filename that in
    (if negb ok then RaiseLibxlError that' else Done tt, that');
  HandleOKCallback := default_HandleOKCallback
|}.

(** The [Worker] class of [Book::Write]. *)
Definition Write_Worker (filename : string) : Worker := {|
  members := unit;
  Execute that :=
    let (ok, that') := save filename that in
    (if negb ok then RaiseLibxlError that' else Done tt, that');
  HandleOKCallback := default_HandleOKCallback
|}.

(** The [Worker] class of [Book::WriteRaw]; its member is the copied
    buffer. *)
Definition WriteRaw_Worker : Worker := {|
  members := list Byte.byte;
  Execute that :=
    let '(ok, data, that') := saveRaw that in
    (if negb ok then RaiseLibxlError that' else Done data, that');
  HandleOKCallback buffer := [[Undefined; Buffer buffer]]
|}.

(** The [Worker] class of [Book::LoadRaw]. *)
Definition LoadRaw_Worker (buffer : list Byte.byte) : Worker := {|
  members := unit;
  Execute that :=
    let (ok, that') := loadRaw buffer that in
    (if negb ok then RaiseLibxlError that' else Done tt, that');
  HandleOKCallback := default_HandleOKCallback
|}.

(** The [Worker] class of [Book::GetPictureAsync]; its members are the
    picture type and the copied buffer. *)
Definition GetPictureAsync_Worker (index : Z) : Worker := {|
  members := Z * list Byte.byte;
  Execute that :=
    let '(pictureType, data, that') := getPicture index that in
    (if (pictureType =? PICTURETYPE_ERROR)%Z then RaiseLibxlError that'
     else Done (pictureType, data), that');
  HandleOKCallback m := [[Undefined; Integer (fst m); Buffer (snd m)]]
|}.

(** The [FileWorker] class of [Book::AddPictureAsync]. *)
Definition FileWorker (filename : string) : Worker := {|
  members := Z;
  Execute that :=
    let (index, that') := addPicture filename that in
    (if (index =? -1)%Z then RaiseLibxlError that' else Done index, that');
  HandleOKCallback index := [[Undefined; Integer index]]
|}.

(** The [BufferWorker] class of [Book::AddPictureAsync]. *)
Definition BufferWorker (buffer : list Byte.byte) : Worker := {|
  members := Z;
  Execute that :=
    let (index, that') := addPicture2 buffer that in
    (if (index =? -1)%Z then RaiseLibxlError that' else Done index, that');
  HandleOKCallback index := [[Undefined; Integer index]]
|}.

(** A call of an asynchronous method whose arguments passed the checks of
    [ArgumentHelper]; the callback argument is left implicit. *)
Inductive request : Type :=
| Load (filename : string)
| Write (filename : string)
| WriteRaw
| LoadRaw (buffer : list Byte.byte)
| GetPictureAsync (index : Z)
| AddPictureAsync (arg0 : jsvalue).

(** The method bodies after the argument checks: the worker handed to
    [NanAsyncQueueWorker], or the exception thrown. *)
Definition queue (r : request) : completion Worker :=
  match r with
  | Load filename => Return (Load_Worker filename)
  | Write filename => Return (Write_Worker filename)
  | WriteRaw => Return WriteRaw_Worker
  | LoadRaw buffer => Return (LoadRaw_Worker buffer)
  | GetPictureAsync index => Return (GetPictureAsync_Worker index)
  | AddPictureAsync (Text filename) => Return (FileWorker filename)
  | AddPictureAsync (Buffer buffer) => Return (BufferWorker buffer)
  | AddPictureAsync _ =>
      ThrowTypeError "string or buffer required as argument 0"
  end.

(** The test a method makes on its arguments itself: [addPictureAsync]
    takes a string ([IsString]) or a buffer ([node::Buffer::HasInstance])
    as its first argument. *)
Definition accepted (r : request) : bool :=
  match r with
  | AddPictureAsync (Text _) | AddPictureAsync (Buffer _) => true
  | AddPictureAsync _ => false
  | Load _ | Write _ | WriteRaw | LoadRaw _ | GetPictureAsync _ => true
  end.

(** Whether the native call of the request reports a failure on [that]. *)
Definition native_failed (r : request) (that : B) : bool :=
  match r with
  | Load filename => negb (fst (load filename that))
  | Write filename => negb (fst (save filename that))
  | WriteRaw => negb (fst (fst (saveRaw that)))
  | LoadRaw buffer => negb (fst (loadRaw buffer that))
  | GetPictureAsync index =>
      (fst (fst (getPicture index that)) =? PICTURETYPE_ERROR)%Z
  | AddPictureAsync (Text filename) =>
      (fst (addPicture filename that) =? -1)%Z
  | AddPictureAsync (Buffer buffer) =>
      (fst (addPicture2 buffer that) =? -1)%Z
  | AddPictureAsync _ => false
  end.

(** The native library after the native call of the request. *)
Definition native_after (r : request) (that : B) : B :=
  match r with
  | Load filename => snd (load filename that)
  | Write filename => snd (save filename that)
  | WriteRaw => snd (saveRaw that)
  | LoadRaw buffer => snd (loadRaw buffer that)
  | GetPictureAsync index => snd (getPicture index that)
  | AddPictureAsync (Text filename) => snd (addPicture filename that)
  | AddPictureAsync (Buffer buffer) => snd (addPicture2 buffer that)
  | AddPictureAsync _ => that
  end.

(** The results of the native call of the request, as JavaScript values:
    what the callback is to receive after its error argument. *)
Definition native_results (r : request) (that : B) : list jsvalue :=
  match r with
  | Load _ | Write _ | LoadRaw _ => []
  | WriteRaw => [Buffer (snd (fst (saveRaw that)))]
  | GetPictureAsync index =>
      [Integer (fst (fst (getPicture index that)));
       Buffer (snd (fst (getPicture index that)))]
  | AddPictureAsync (Text filename) =>
      [Integer (fst (addPicture filename that))]
  | AddPictureAsync (Buffer buffer) =>
      [Integer (fst (addPicture2 buffer that))]
  | AddPictureAsync _ => []
  end.

End Book.

Arguments ThrowTypeError {A} message.
Arguments ThrowError {A} message.
Arguments Return {A} a.
Arguments Raised {M} message.
Arguments Done {M} members.

End BookCc.

(** ** Example inputs *)

Module Examples.

Import Js Install BookCc.

(** A license file of the documented shape, with the given licensee (if
    any) and the given Linux key (if any). *)
Definition license_doc (licensee linux : option value) : value :=
  VObj ((match licensee with
         | Some v => [("licensee", v)]
         | None => []
         end) ++
        [("keys",
          VObj ([("mac", VStr "mac-key"); ("windows", VStr "win-key")] ++
                match linux with
                | Some v => [("linux", v)]
                | None => []
                end))])%list.

(** A Linux checkout in [/home/dev/node-libxl] with the license file in
    [/home]; [installed] tells whether [deps/libxl] exists. *)
Definition checkout (installed : bool) (license : value) : World := {|
  platform := "linux";
  root := "/";
  dirname := ["home"; "dev"; "node-libxl"];
  existsSync p :=
    match p with
    | Abs ["home"; "libxl-license.json"] => true
    | Rel ["deps"; "libxl"] => installed
    | _ => false
    end;
  readdirSync p :=
    match p with
    | Rel ["deps_archive"] =>
        Some ["README"; "libxl-lin-3.6.5.0.tar.gz"; "libxl-mac-3.6.5.0.tar.gz"]
    | _ => None
    end;
  extracted := Some ["libxl-3.6.5.0"];
  parse_license _ := Some license;
  throws _ := false;
  spawned _ _ := Closes 0
|}.

Definition acme : value :=
  license_doc (Some (VStr "Acme Inc")) (Some (VStr "linux-key")).


(** A license file without a licensee whose Linux key is an object with a
    [toString] member. *)
Definition object_key : value :=
  license_doc None (Some (VObj [("toString", VNum "1")])).


Definition called (b : list string) (call : string) : list string :=
  (b ++ [call])%list.

(** A native library that records the calls made on it; every call
    succeeds except [load]. *)
Definition recorder : Libxl (list string) := {|
  xlCreateBook := Some ["xlCreateBook"];
  xlCreateXMLBook := Some ["xlCreateXMLBook"];
  setLocale locale b := called b ("setLocale " ++ locale);
  setKey name key b := called b ("setKey " ++ name ++ " " ++ key);
  load filename b := (false, called b ("load " ++ filename));
  save filename b := (true, called b ("save " ++ filename));
  saveRaw b := (true, [Byte.x50; Byte.x4b], called b "saveRaw");
  loadRaw _ b := (true, called b "loadRaw");
  getPicture _ b := (0%Z, [Byte.x89], called b "getPicture");
  addPicture filename b := (0%Z, called b ("addPicture " ++ filename));
  addPicture2 _ b := (0%Z, called b "addPicture2");
  errorMessage _ := "can't open file";
  PICTURETYPE_ERROR := 255%Z
|}.

End Examples.

(** ** The FTP download of the provisioning script *)

Module Downloader.

Import Js Install.

(** *** [consumeDownload] *)

(** A chunk of the download, a [Buffer]. *)
Definition chunk : Type := list Byte.byte.

(** What [consumeDownload] does to [outstream] and to its callback.
    [Write None] is a write of [undefined], which [chunks[chunkIdx++]]
    yields past the end of [chunks]; [Callback n data] is
    [callback(undefined, n, md5(data, n))]. *)
Inductive output : Type :=
| Write (c : option chunk)
| OutEnd
| Callback (bytes : nat) (hashed : list Byte.byte).

(** The variables of [consumeDownload], with the outputs made so far. *)
Record consumer : Type := {
  chunks : list chunk;
  instreamTerminated : bool;
  outstreamTerminated : bool;
  buffering : bool;
  chunkIdx : nat;
  totalSize : nat;
  outputs : list output
}.

Definition start : consumer := {|
  chunks := [];
  instreamTerminated := false;
  outstreamTerminated := false;
  buffering := false;
  chunkIdx := 0;
  totalSize := 0;
  outputs := []
|}.

(** The events the handlers are registered for. *)
Inductive stream_event : Type :=
| Data (c : chunk)
| End_
| Drain
| Close.

Section Consume.

(** What [outstream.write] returns for the write of chunk number [i].
    [chunkIdx] only grows, so no two writes share a number. *)
Variable writable : nat -> bool.

Definition write (s : consumer) : bool * consumer :=
  (writable (chunkIdx s),
   {| chunks := chunks s;
      instreamTerminated := instreamTerminated s;
      outstreamTerminated := outstreamTerminated s;
      buffering := buffering s;
      chunkIdx := S (chunkIdx s);
      totalSize := totalSize s;
      outputs := outputs s ++ [Write (nth_error (chunks s) (chunkIdx s))] |}).

Definition set_buffering (b : bool) (s : consumer) : consumer :=
  {| chunks := chunks s;
     instreamTerminated := instreamTerminated s;
     outstreamTerminated := outstreamTerminated s;
     buffering := b;
     chunkIdx := chunkIdx s;
     totalSize := totalSize s;
     outputs := outputs s |}.

Definition terminateOutstream (s : consumer) : consumer :=
  {| chunks := chunks s;
     instreamTerminated := instreamTerminated s;
     outstreamTerminated := true;
     buffering := buffering s;
     chunkIdx := chunkIdx s;
     totalSize := totalSize s;
     outputs := if outstreamTerminated s then outputs s
                else outputs s ++ [OutEnd] |}.

(** The handler of [data] on [instream]. *)
Definition on_data (c : chunk) (s : consumer) : consumer :=
  let s :=
    {| chunks := chunks s ++ [c];
       instreamTerminated := instreamTerminated s;
       outstreamTerminated := outstreamTerminated s;
       buffering := buffering s;
       chunkIdx := chunkIdx s;
       totalSize := totalSize s + length c;
       outputs := outputs s |} in
  if negb (buffering s)
  then let (ok, s') := write s in set_buffering (negb ok) s'
  else s.

(** The handler of [end] on [instream]. *)
Definition on_end (s : consumer) : consumer :=
  let s :=
    {| chunks := chunks s;
       instreamTerminated := true;
       outstreamTerminated := outstreamTerminated s;
       buffering := buffering s;
       chunkIdx := chunkIdx s;
       totalSize := totalSize s;
       outputs := outputs s |} in
  if negb (buffering s) then terminateOutstream s else s.

(** The [while] loop of the [drain] handler, for at most [fuel] tests of
    its condition; [None] when they do not suffice. *)
Fixpoint drain_loop (fuel : nat) (s : consumer) : option consumer :=
  match fuel with
  | O => None
  | S fuel' =>
      let s := set_buffering (chunkIdx s <? length (chunks s))%nat s in
      if buffering s then
        let (ok, s') := write s in
        if ok then drain_loop fuel' s' else Some s'
      else Some s
  end.

(** The handler of [drain] on [outstream]. *)
Definition on_drain (s : consumer) : option consumer :=
  match drain_loop (S (length (chunks s) - chunkIdx s)) s with
  | Some s =>
      Some (if negb (buffering s) && instreamTerminated s
            then terminateOutstream s else s)
  | None => None
  end.

(** The handler of [close] on [outstream]. *)
Definition on_close (s : consumer) : consumer :=
  {| chunks := chunks s;
     instreamTerminated := instreamTerminated s;
     outstreamTerminated := outstreamTerminated s;
     buffering := buffering s;
     chunkIdx := chunkIdx s;
     totalSize := totalSize s;
     outputs := outputs s
                ++ [Callback (totalSize s) (List.concat (chunks s))] |}.

Definition handle (e : stream_event) (s : consumer) : option consumer :=
  match e with
  | Data c => Some (on_data c s)
  | End_ => Some (on_end s)
  | Drain => on_drain s
  | Close => Some (on_close s)
  end.

(** The handlers run for a sequence of events, in order. *)
Fixpoint consume (evs : list stream_event) (s : consumer) : option consumer :=
  match evs with
  | [] => Some s
  | e :: rest =>
      match handle e s with
      | Some s' => consume rest s'
      | None => None
      end
  end.

End Consume.

(** The chunks of the [data] events, in order. *)
Fixpoint received (evs : list stream_event) : list chunk :=
  match evs with
  | [] => []
  | Data c :: rest => c :: received rest
  | _ :: rest => received rest
  end.

(** The chunks written to [outstream], in order. *)
Fixpoint written (out : list output) : list (option chunk) :=
  match out with
  | [] => []
  | Write c :: rest => c :: written rest
  | _ :: rest => written rest
  end.

(** What was done to [outstream], without the calls of the callback. *)
Definition on_outstream (out : list output) : list output :=
  filter (fun o => match o with Callback _ _ => false | _ => true end) out.

(** How often [outstream.end()] was called. *)
Definition ended (out : list output) : nat :=
  length (filter (fun o => match o with OutEnd => true | _ => false end) out).

(** What the handlers keep true of the variables, whatever the events. *)
Record invariant (s : consumer) : Prop := {
  idx_in_range : (chunkIdx s <= length (chunks s))%nat;
  flushed : buffering s = false -> chunkIdx s = length (chunks s);
  written_prefix :
    written (outputs s) = map Some (firstn (chunkIdx s) (chunks s));
  size_counted : totalSize s = length (List.concat (chunks s));
  ended_flag : ended (outputs s) = if outstreamTerminated s then 1%nat else 0%nat;
  ended_after_end : outstreamTerminated s = true -> instreamTerminated s = true
}.

Definition no_data (evs : list stream_event) : bool :=
  forallb (fun e => match e with Data _ => false | _ => true end) evs.

(** No [data] comes after [end]: the contract of a readable stream. *)
Fixpoint ends_once (evs : list stream_event) : bool :=
  match evs with
  | [] => true
  | End_ :: rest => no_data rest && ends_once rest
  | _ :: rest => ends_once rest
  end.

(** The calls made on [outstream] when the consumer follows its input:
    the chunks written so far, in order, then [end()] if it was called. *)
Definition follows_input (s : consumer) : Prop :=
  on_outstream (outputs s) =
    (map (fun c => Write (Some c)) (firstn (chunkIdx s) (chunks s)) ++
     if outstreamTerminated s then [OutEnd] else [])%list /\
  (outstreamTerminated s = true -> chunkIdx s = length (chunks s)).

(** *** The pattern of [decodeDirectoryEntry] *)

(** The first [n] characters of [s], and the rest. *)
Fixpoint take (n : nat) (s : string) : string :=
  match n, s with
  | S n', String c s' => String c (take n' s')
  | _, _ => EmptyString
  end.

Fixpoint drop (n : nat) (s : string) : string :=
  match n, s with
  | S n', String _ s' => drop n' s'
  | _, _ => s
  end.

(** The length of the longest prefix of [s] made of characters of the
    class. *)
Fixpoint span (cls : ascii -> bool) (s : string) : nat :=
  match s with
  | String c s' => if cls c then S (span cls s') else 0
  | EmptyString => 0
  end.

Definition all (cls : ascii -> bool) (s : string) : bool :=
  forallb cls (list_ascii_of_string s).

(** A regular expression of the shape the script uses: a sequence of
    literal texts and of capturing groups [(class+)], matched against the
    whole text (from [^] to [$]). *)
Inductive item : Type :=
| Lit (text : string)
| Group (cls : ascii -> bool).

(** A greedy group followed by [cont]: the group first takes [n]
    characters and gives them back one by one, down to one, until the
    rest of the pattern matches what is left. *)
Fixpoint backtrack (cont : string -> option (list string)) (s : string)
    (n : nat) : option (list string) :=
  match n with
  | O => None
  | S n' =>
      match cont (drop n s) with
      | Some captures => Some (take n s :: captures)
      | None => backtrack cont s n'
      end
  end.

(** The captures of the match of the pattern against [s], if it matches. *)
Fixpoint exec (pattern : list item) (s : string) : option (list string) :=
  match pattern with
  | [] => if s =? "" then Some [] else None
  | Lit text :: rest =>
      if prefix text s then exec rest (drop (String.length text) s) else None
  | Group cls :: rest => backtrack (exec rest) s (span cls s)
  end.

Definition code (c : ascii) : nat := nat_of_ascii c.

Definition between (lo hi : nat) (c : ascii) : bool :=
  (lo <=? code c)%nat && (code c <=? hi)%nat.

(** [\w]: letters, digits and the underscore. *)
Definition word (c : ascii) : bool :=
  between 97 122 c || between 65 90 c || between 48 57 c || (code c =? 95)%nat.

(** [[\d\.]] *)
Definition digit_dot (c : ascii) : bool :=
  between 48 57 c || (code c =? 46)%nat.

(** [[a-zA-z\.]]: the range [A-z] runs from code 65 to code 122. *)
Definition alpha_dot (c : ascii) : bool :=
  between 97 122 c || between 65 122 c || (code c =? 46)%nat.

(** [/^libxl-(\w+)-([\d\.]+)\.([a-zA-z\.]+)$/] *)
Definition entry_pattern : list item :=
  [Lit "libxl-"; Group word; Lit "-"; Group digit_dot; Lit ".";
   Group alpha_dot].

(** An entry of the listing the FTP client hands over: the object of an
    entry it parsed, of which the script reads the [name], or the line of
    an entry it could not parse, as a string, which has no [name]. *)
Inductive entry : Type :=
| Parsed (name : string)
| Unparsed (line : string).

(** [entry.name] *)
Definition entry_name (e : entry) : option string :=
  match e with
  | Parsed name => Some name
  | Unparsed _ => None
  end.

(** What a call of [decodeDirectoryEntry] comes to: the object it
    returns, the [undefined] it returns without a match, or the TypeError
    of [entry.name.match] on an entry without a name. *)
Inductive decoded : Type :=
| Archive (f : archive)
| NoMatch
| NoName.

Definition decodeDirectoryEntry (e : entry) : decoded :=
  match entry_name e with
  | None => NoName
  | Some name =>
      match exec entry_pattern name with
      | Some [m1; m2; m3] =>
          Archive {| file := name; system := m1; version := m2; suffix := m3 |}
      | _ => NoMatch
      end
  end.

(** What a match of the pattern means: the text is the literals and the
    captures in turn, and every capture is a non-empty text of its
    class. *)
Fixpoint matched (pattern : list item) (captures : list string)
    (s : string) : Prop :=
  match pattern, captures with
  | [], [] => s = ""
  | Lit text :: rest, _ => exists s', s = text ++ s' /\ matched rest captures s'
  | Group cls :: rest, m :: captures' =>
      exists s', s = m ++ s' /\ m <> "" /\ all cls m = true /\
                 matched rest captures' s'
  | _, _ => False
  end.

(** *** [validArchive] and [processDirectoryList] *)

(** The extension of the archive for the platform. *)
Definition archive_extension (w : World) : string :=
  if isWin w then "zip" else "tar.gz".

Definition validArchive (w : World) (f : archive) : bool :=
  if isWin w then (system f =? "win") && (suffix f =? "zip")
  else if isMac w then (system f =? "mac") && (suffix f =? "tar.gz")
  else (system f =? "lin") && (suffix f =? "tar.gz").

(** [.map(decodeDirectoryEntry)]: the values returned ([None] for
    [undefined]), unless a call throws. *)
Fixpoint map_decode (entries : list entry)
    : option (list (option archive)) :=
  match entries with
  | [] => Some []
  | e :: rest =>
      match decodeDirectoryEntry e with
      | NoName => None
      | Archive f => option_map (cons (Some f)) (map_decode rest)
      | NoMatch => option_map (cons None) (map_decode rest)
      end
  end.

(** A value [decodeDirectoryEntry] returns, as [.map] collects it. *)
Definition returned_by (o : option archive) : decoded :=
  match o with
  | Some f => Archive f
  | None => NoMatch
  end.

(** [.filter(validArchive)] over the decoded entries; [None] is the
    TypeError that [file.system] raises on an [undefined] entry. *)
Fixpoint filter_valid (w : World) (files : list (option archive))
    : option (list archive) :=
  match files with
  | [] => Some []
  | None :: _ => None
  | Some f :: rest =>
      match filter_valid w rest with
      | Some fs => Some (if validArchive w f then f :: fs else fs)
      | None => None
      end
  end.

(** What [processDirectoryList] ends with: the call of the inner
    [download], or the message of the error it catches and logs (the text
    of the TypeError is the engine's). *)
Inductive processed : Type :=
| DownloadFile (name : string)
| LogMessage (message : string)
| LogTypeError.

(** [processDirectoryList].  [sort] stands for [.sort(compareFiles)]:
    [compareFiles] returns 1 for a file and itself, so it is no consistent
    comparison function and the order of the result is up to the engine. *)
Definition processDirectoryList (w : World)
    (sort : list archive -> list archive) (list : option (list entry))
    : processed :=
  match list with
  | None => LogMessage "FTP list failed"
  | Some entries =>
      match map_decode entries with
      | None => LogTypeError
      | Some files =>
          match filter_valid w files with
          | None => LogTypeError
          | Some valid =>
              match sort valid with
              | [] => LogMessage "Failed to identify a suitable download"
              | first :: _ => DownloadFile (file first)
              end
          end
      end
  end.

(** A stand-in for the engine's sort: insertion by [compareFiles]. *)
Fixpoint insert_by (f : archive) (l : list archive) : list archive :=
  match l with
  | [] => [f]
  | g :: rest =>
      if (compareFiles f g <? 0)%Z then f :: l else g :: insert_by f rest
  end.

Definition insertion_sort (l : list archive) : list archive :=
  fold_right insert_by [] l.

(** The order [compareFiles] puts two lists of version components in,
    told by recursion on the lists: what its loop and its last line
    compute together. *)
Fixpoint versions_cmp (v1 v2 : list string) : Z :=
  match v1, v2 with
  | a :: r1, b :: r2 =>
      if (cmp a b =? 0)%Z then versions_cmp r1 r2 else cmp a b
  | _ :: _, [] => (-1)%Z
  | [], _ => 1%Z
  end.

End Downloader.

(** ** [src/book.cc]: the synchronous counterparts *)

Module BookSync.

Import BookCc.

Section Sync.

Context {B : Type} {libxl : Libxl B}.

(** What a synchronous method returns: the receiver, one value, or the
    object [{type, data}] of [getPicture]. *)
Inductive returned : Type :=
| This
| Value (v : jsvalue)
| Picture (type : Z) (data : list Byte.byte).

(** How a synchronous method ends.  [ThrowLibxlError that] is the call of
    [util::ThrowLibxlError] on the book in the state [that]. *)
Inductive outcome : Type :=
| ThrowLibxlError (that : B)
| ThrowType (message : string)
| Returns (r : returned).

(** [Book::LoadSync], after the checks of its arguments and receiver. *)
Definition LoadSync (filename : string) (that : B) : outcome * B :=
  let (ok, that') := load filename that in
  (if negb ok then ThrowLibxlError that' else Returns This, that').

(** [Book::WriteSync] *)
Definition WriteSync (filename : string) (that : B) : outcome * B :=
  let (ok, that') := save filename that in
  (if negb ok then ThrowLibxlError that' else Returns This, that').

(** [Book::WriteRawSync] *)
Definition WriteRawSync (that : B) : outcome * B :=
  let '(ok, data, that') := saveRaw that in
  (if negb ok then ThrowLibxlError that'
   else Returns (Value (Buffer data)), that').

(** [Book::LoadRawSync] *)
Definition LoadRawSync (buffer : list Byte.byte) (that : B) : outcome * B :=
  let (ok, that') := loadRaw buffer that in
  (if negb ok then ThrowLibxlError that' else Returns This, that').

(** [Book::GetPicture] *)
Definition GetPicture (index : Z) (that : B) : outcome * B :=
  let '(pictureType, data, that') := getPicture index that in
  (if (pictureType =? PICTURETYPE_ERROR)%Z then ThrowLibxlError that'
   else Returns (Picture pictureType data), that').

(** [Book::AddPicture], by its first argument. *)
Definition AddPicture (arg0 : jsvalue) (that : B) : outcome * B :=
  match arg0 with
  | Text filename =>
      let (index, that') := addPicture filename that in
      (if (index =? -1)%Z then ThrowLibxlError that'
       else Returns (Value (Integer index)), that')
  | Buffer buffer =>
      let (index, that') := addPicture2 buffer that in
      (if (index =? -1)%Z then ThrowLibxlError that'
       else Returns (Value (Integer index)), that')
  | _ => (ThrowType "string or buffer required as argument 0", that)
  end.

(** The synchronous method that goes with an asynchronous one. *)
Definition synchronous (r : request) : B -> outcome * B :=
  match r with
  | Load filename => LoadSync filename
  | BookCc.Write filename => WriteSync filename
  | WriteRaw => WriteRawSync
  | LoadRaw buffer => LoadRawSync buffer
  | GetPictureAsync index => GetPicture index
  | AddPictureAsync arg0 => AddPicture arg0
  end.

(** What a synchronous method returns, as the list of values an
    asynchronous callback is handed after its error argument. *)
Definition as_results (r : returned) : list jsvalue :=
  match r with
  | This => []
  | Value v => [v]
  | Picture type data => [Integer type; Buffer data]
  end.

End Sync.

End BookSync.

(** ** Further example inputs *)

Module MoreExamples.

Import Js Install Examples.

(** The checkout of [Examples], with an extractor that fails. *)
Definition failing_extractor : World := {|
  platform := "linux";
  root := "/";
  dirname := ["home"; "dev"; "node-libxl"];
  existsSync := existsSync (checkout false acme);
  readdirSync := readdirSync (checkout false acme);
  extracted := None;
  parse_license := parse_license (checkout false acme);
  throws _ := false;
  spawned _ _ := Closes 2
|}.

(** A checkout with [deps] but without [deps_archive]. *)
Definition no_archive_dir : World := {|
  platform := "linux";
  root := "/";
  dirname := ["home"; "dev"; "node-libxl"];
  existsSync p := match p with
                  | Rel ["deps"] => true
                  | _ => false
                  end;
  readdirSync _ := None;
  extracted := None;
  parse_license _ := None;
  throws _ := false;
  spawned _ _ := Closes 0
|}.

(** A checkout with [deps] and a [deps_archive] that holds no archive
    for Linux. *)
Definition no_platform_archive : World := {|
  platform := "linux";
  root := "/";
  dirname := ["home"; "dev"; "node-libxl"];
  existsSync p := match p with
                  | Rel ["deps"] => true
                  | _ => false
                  end;
  readdirSync p :=
    match p with
    | Rel ["deps_archive"] => Some ["README"; "libxl-mac-3.6.5.0.tar.gz"]
    | _ => None
    end;
  extracted := None;
  parse_license _ := None;
  throws _ := false;
  spawned _ _ := Closes 0
|}.

End MoreExamples.

(** ** Kinds of effects *)

Module Effects.

Import Install.

(** Not a rename. *)
Definition keeps_names (e : event) : Prop :=
  match e with
  | RenameSync _ _ => False
  | _ => True
  end.

End Effects.

(** * Properties *)

Import Js Install ApiKeyH BookCc Examples.

(** ** The archive comparator *)

Lemma cmp_refl (a : string) : cmp a a = 0%Z.
Proof.
  unfold cmp, str_gt, str_lt, String.ltb.
  assert (E : String.compare a a = Eq).
  { pose proof (String.compare_antisym a a) as H.
    destruct (String.compare a a); simpl in H; congruence. }
  rewrite E. reflexivity.
Qed.

Lemma compare_loop_nonzero (v1 v2 : list string) (todo i : nat) (r : Z) :
  compare_loop v1 v2 i todo = Some r -> r <> 0%Z.
Proof.
  revert i. induction todo as [|todo IH]; intros i; simpl.
  - discriminate.
  - destruct (cmp (nth i v1 "") (nth i v2 "") =? 0)%Z eqn:E.
    + apply IH.
    + intros H. injection H as <-. apply Z.eqb_neq. exact E.
Qed.

Lemma compare_loop_agree (v1 v2 : list string) (todo i : nat) :
  forallb (fun i => nth i v1 "" =? nth i v2 "") (seq i todo) = true ->
  compare_loop v1 v2 i todo = None.
Proof.
  revert i. induction todo as [|todo IH]; intros i; simpl.
  - reflexivity.
  - intros H. apply andb_true_iff in H. destruct H as [H1 H2].
    apply String.eqb_eq in H1. rewrite H1, cmp_refl. simpl.
    apply IH. exact H2.
Qed.

Lemma agree_on_common_refl (v : list string) : agree_on_common v v = true.
Proof.
  unfold agree_on_common. apply forallb_forall. intros i _.
  apply String.eqb_refl.
Qed.

(** C9. [compareFiles] orders version components as strings: version
    3.10.0 is ordered after 3.9.0 (the comparator is positive for that
    pair and negative for the swapped one, because the string [10] is
    below the string [9]).  For files whose versions agree on all common
    components it returns -1 when the first version is the longer one and
    1 otherwise, so 1 for identical versions; and it returns 0 for no pair
    of files at all. *)
Theorem compareFiles_strings_never_zero :
  (cmp "10" "9" = 1%Z /\
   compareFiles (lin_archive "3.10.0") (lin_archive "3.9.0") = 1%Z /\
   compareFiles (lin_archive "3.9.0") (lin_archive "3.10.0") = (-1)%Z) /\
  (forall file1 file2,
      agree_on_common (decodeVersion file1) (decodeVersion file2) = true ->
      compareFiles file1 file2 =
        (if (length (decodeVersion file2) <? length (decodeVersion file1))%nat
         then (-1)%Z else 1%Z) /\
      compareFiles file1 file2 <> 0%Z) /\
  (forall file1, compareFiles file1 file1 = 1%Z) /\
  (forall file1 file2, compareFiles file1 file2 <> 0%Z).
Proof.
  assert (agree : forall file1 file2,
             agree_on_common (decodeVersion file1) (decodeVersion file2) = true ->
             compareFiles file1 file2 =
               (if (length (decodeVersion file2) <? length (decodeVersion file1))%nat
                then (-1)%Z else 1%Z)).
  { intros file1 file2 H. unfold compareFiles.
    rewrite (compare_loop_agree _ _ _ _ H).
    destruct (Nat.ltb_spec (Nat.min (length (decodeVersion file1))
                                    (length (decodeVersion file2)))
                           (length (decodeVersion file1)));
      destruct (Nat.ltb_spec (length (decodeVersion file2))
                             (length (decodeVersion file1)));
      try reflexivity; lia. }
  split; [repeat split | split; [| split]].
  - intros file1 file2 H. split; [exact (agree _ _ H) |].
    rewrite (agree _ _ H). destruct (_ <? _)%nat; discriminate.
  - intros file1. rewrite (agree _ _ (agree_on_common_refl _)).
    rewrite Nat.ltb_irrefl. reflexivity.
  - intros file1 file2. unfold compareFiles.
    destruct (compare_loop _ _ 0 _) as [r|] eqn:E.
    + exact (compare_loop_nonzero _ _ _ _ _ E).
    + destruct (_ <? _)%nat; discriminate.
Qed.

Lemma compareFiles_strings_never_zero_witness :
  agree_on_common (decodeVersion (lin_archive "3.9.0.1"))
                  (decodeVersion (lin_archive "3.9.0")) = true /\
  compareFiles (lin_archive "3.9.0.1") (lin_archive "3.9.0") = (-1)%Z.
Proof.
  split.
  - reflexivity.
  - exact (proj1 (proj1 (proj2 compareFiles_strings_never_zero)
                        (lin_archive "3.9.0.1") (lin_archive "3.9.0")
                        eq_refl)).
Defined.

(** ** Reasoning about runs of the script *)

(** [emits P Q m]: whatever the trace so far, [m] appends only events
    satisfying [P], and a value it goes on with satisfies [Q]. *)
Definition emits {A : Type} (P : event -> Prop) (Q : A -> Prop)
    (m : script A) : Prop :=
  forall tr, exists evs,
    trace (m tr) = (tr ++ evs)%list /\ Forall P evs /\
    (forall a tr', m tr = Next a tr' -> Q a).

Lemma emits_ret {A : Type} (P : event -> Prop) (Q : A -> Prop) (a : A) :
  Q a -> emits P Q (ret a).
Proof.
  intros H tr. exists []. rewrite app_nil_r. repeat split; auto.
  intros a' tr' E. injection E as <- _. exact H.
Qed.

Lemma emits_bind {A B : Type} (P : event -> Prop) (Q : A -> Prop)
    (R : B -> Prop) (m : script A) (k : A -> script B) :
  emits P Q m -> (forall a, Q a -> emits P R (k a)) -> emits P R (bind m k).
Proof.
  intros Hm Hk tr. destruct (Hm tr) as (evs & Et & Hevs & Hq).
  unfold bind. destruct (m tr) as [a tr1 | st tr1] eqn:E; simpl in Et; subst tr1.
  - destruct (Hk a (Hq _ _ eq_refl) (tr ++ evs)%list) as (evs' & Et' & Hevs' & Hr).
    exists (evs ++ evs')%list. rewrite app_assoc. repeat split.
    + exact Et'.
    + apply Forall_app. split; assumption.
    + exact Hr.
  - exists evs. repeat split; auto. discriminate.
Qed.

Lemma emits_console_log (P : event -> Prop) (Q : unit -> Prop) (msg : string) :
  P (Log msg) -> Q tt -> emits P Q (console_log msg).
Proof.
  intros Hp Hq tr. exists [Log msg]. repeat split; auto.
  intros [] tr' _. exact Hq.
Qed.

Lemma emits_fs_call (w : World) (P : event -> Prop) (Q : unit -> Prop)
    (e : event) :
  P e -> Q tt -> emits P Q (fs_call w e).
Proof.
  intros Hp Hq tr. exists [e]. unfold fs_call.
  destruct (throws w e); repeat split; auto; intros [] tr' E;
    [discriminate | exact Hq].
Qed.

Lemma emits_process_exit {A : Type} (P : event -> Prop) (Q : A -> Prop)
    (code : Z) :
  emits P Q (process_exit code).
Proof.
  intros tr. exists []. rewrite app_nil_r. repeat split; auto. discriminate.
Qed.

Lemma emits_throw {A : Type} (P : event -> Prop) (Q : A -> Prop) :
  emits P Q (@throw A).
Proof.
  intros tr. exists []. rewrite app_nil_r. repeat split; auto. discriminate.
Qed.

Lemma emits_try {A : Type} (P : event -> Prop) (o : option A) :
  emits P (fun a => o = Some a) (try o).
Proof.
  destruct o as [a|]; simpl.
  - apply emits_ret. reflexivity.
  - apply emits_throw.
Qed.

Lemma emits_when (P : event -> Prop) (b : bool) (m : script unit) :
  emits P (fun _ => True) m -> emits P (fun _ => True) (when b m).
Proof.
  intros H. destruct b; simpl; [exact H | apply emits_ret; exact I].
Qed.

Lemma emits_weaken {A : Type} (P : event -> Prop) (Q Q' : A -> Prop)
    (m : script A) :
  emits P Q m -> (forall a, Q a -> Q' a) -> emits P Q' m.
Proof.
  intros H HQ tr. destruct (H tr) as (evs & Et & Hevs & Hq).
  exists evs. repeat split; eauto.
Qed.

(** Splits a sequence of script steps into its steps. *)
Ltac emits_steps :=
  repeat first
    [ apply emits_bind with (Q := fun _ => True); [| intros ? _]
    | apply emits_when
    | apply emits_console_log
    | apply emits_fs_call
    | apply emits_process_exit
    | apply emits_throw
    | apply emits_ret
    | (eapply emits_weaken; [apply emits_try | intros; exact I]) ].

(** ** The license search *)

Lemma parent_fixed (dir : list string) : parent dir = dir <-> dir = [].
Proof.
  unfold parent. split.
  - intros H. destruct dir as [|a l] using rev_ind; [reflexivity |].
    rewrite removelast_last in H. apply (f_equal (@length string)) in H.
    rewrite length_app in H. simpl in H. lia.
  - intros ->. reflexivity.
Qed.

Lemma parent_shorter (dir : list string) :
  dir <> [] -> (length (parent dir) < length dir)%nat.
Proof.
  unfold parent. intros H. destruct dir as [|a l] using rev_ind; [congruence |].
  rewrite removelast_last, length_app. simpl. lia.
Qed.

(** One iteration, by cases: the file is found here; or this is the root
    and the process exits with code 1; or the search moves to the parent. *)
Lemma search_body_cases (w : World) (dir : list string) (tr : list event) :
  search_body w dir tr =
    if existsSync w (join (Abs dir) licenseFilename)
    then Next (inr (join (Abs dir) licenseFilename)) tr
    else match dir with
         | [] => Halt (Exit 1)
                   (tr ++ [Log "Cannot locate libxl-license.json; terminating"])
         | _ :: _ => Next (inl (parent dir)) tr
         end.
Proof.
  unfold search_body. destruct (existsSync w _); [reflexivity |].
  destruct (list_eq_dec string_dec (parent dir) dir) as [E | E].
  - apply parent_fixed in E. subst dir. reflexivity.
  - destruct dir; [exfalso; apply E; reflexivity | reflexivity].
Qed.

Lemma search_loop_from (w : World) (dir : list string) (n : nat) :
  forall fuel tr, (n <= length dir)%nat -> (n < fuel)%nat ->
    search_loop w fuel (firstn n dir) tr =
      match find (fun d => existsSync w (join (Abs d) licenseFilename))
                 (ancestors_from n dir) with
      | Some d => Next (join (Abs d) licenseFilename) tr
      | None => Halt (Exit 1)
                  (tr ++ [Log "Cannot locate libxl-license.json; terminating"])
      end.
Proof.
  induction n as [|n IH]; intros fuel tr Hn Hf;
    (destruct fuel as [|fuel]; [lia |]);
    cbn [search_loop ancestors_from find]; unfold bind;
    rewrite search_body_cases.
  - cbn [firstn].
    destruct (existsSync w (join (Abs []) licenseFilename)); reflexivity.
  - destruct (existsSync w (join (Abs (firstn (S n) dir)) licenseFilename));
      [reflexivity |].
    destruct (firstn (S n) dir) as [|a l] eqn:E.
    + destruct dir; [simpl in Hn; lia | discriminate].
    + rewrite <- E. unfold parent. rewrite removelast_firstn by lia.
      apply IH; lia.
Qed.

Lemma search_loop_emits (w : World) (P : event -> Prop) (fuel : nat) :
  (forall msg, P (Log msg)) ->
  forall dir, emits P (fun _ => True) (search_loop w fuel dir).
Proof.
  intros Hlog. induction fuel as [|fuel IH]; intros dir; cbn [search_loop].
  - intros tr. exists []. rewrite app_nil_r. repeat split; auto.
  - apply emits_bind with (Q := fun _ => True).
    + unfold search_body.
      destruct (existsSync w _); emits_steps; auto.
    + intros [dir' | licensePath] _; [apply IH | emits_steps; auto].
Qed.

Lemma select_license_key_name (w : World) (licenses : value) :
  select_license w licenses =
    (keys <- try (get licenses "keys") ;; try (get keys (key_name w))).
Proof.
  unfold select_license, key_name.
  destruct (isWin w); [reflexivity |]. destruct (isMac w); reflexivity.
Qed.

Lemma select_license_emits (w : World) (P : event -> Prop) (licenses : value) :
  emits P (fun _ => True) (select_license w licenses).
Proof.
  rewrite select_license_key_name. emits_steps; auto.
Qed.

Lemma apply_license_emits (w : World) (P : event -> Prop) (fuel : nat) :
  (forall msg, P (Log msg)) ->
  (forall data, P (WriteFileSync (api_key_h w) data)) ->
  emits P (fun _ => True) (apply_license w fuel).
Proof.
  intros Hlog Hwrite. unfold apply_license.
  apply emits_bind with (Q := fun _ => True);
    [apply search_loop_emits; exact Hlog | intros licensePath _].
  do 2 (apply emits_bind with (Q := fun _ => True);
        [emits_steps; auto | intros ? _]).
  apply emits_bind with (Q := fun _ => True);
    [apply select_license_emits | intros license _].
  emits_steps; auto.
Qed.

Lemma rename_extracted_emits (w : World) (P : event -> Prop) :
  (forall msg, P (Log msg)) ->
  (forall src dst, P (RenameSync src dst)) ->
  emits P (fun _ => True) (rename_extracted w).
Proof.
  intros Hlog Hren. unfold rename_extracted, finder. emits_steps; auto.
  match goal with
  | |- emits _ _ (match ?o with Some _ => _ | None => _ end) => destruct o
  end; emits_steps; auto.
Qed.

Lemma execute_emits (w : World) (P P' : event -> Prop) (cmd : string)
    (args : list value) (callback : script unit) :
  P (Spawn cmd args) ->
  emits P' (fun _ => True) callback ->
  emits P (fun pending => emits P' (fun _ => True) pending)
        (execute w cmd args callback).
Proof.
  intros Hspawn Hcb tr. exists [Spawn cmd args]. unfold execute.
  destruct (spawned w cmd args) as [| | code]; repeat split; auto;
    intros pending tr' E; try discriminate; injection E as <- _.
  - apply emits_throw.
  - destruct (code =? 0)%Z; [exact Hcb | apply emits_process_exit].
Qed.

Lemma provision_library_emits (w : World) (P P' : event -> Prop) :
  (forall msg, P (Log msg)) ->
  P (MkdirSync dependencyDir) ->
  (forall cmd args, P (Spawn cmd args)) ->
  (forall msg, P' (Log msg)) ->
  (forall src dst, P' (RenameSync src dst)) ->
  emits P (fun pending => emits P' (fun _ => True) pending)
        (provision_library w).
Proof.
  intros Hlog Hmk Hspawn Hlog' Hren. unfold provision_library.
  destruct (existsSync w libxlDir).
  - apply emits_bind with (Q := fun _ => True); [emits_steps; auto |].
    intros _ _. apply emits_ret. apply emits_ret. exact I.
  - apply emits_bind with (Q := fun _ => True); [emits_steps; auto |].
    intros _ _. unfold finder.
    apply emits_bind with (Q := fun _ => True); [emits_steps; auto |].
    intros selectedArchive _. unfold extractor.
    apply emits_bind with (Q := fun _ => True); [emits_steps; auto |].
    intros name _.
    apply emits_bind with (Q := fun _ => True); [emits_steps; auto |].
    intros _ _.
    destruct (isWin w); apply execute_emits; auto;
      apply rename_extracted_emits; auto.
Qed.

(** Every event of a run satisfies [P], when [P] holds of the events the
    script can emit. *)
Lemma install_emits (w : World) (P : event -> Prop) (fuel : nat) :
  (forall msg, P (Log msg)) ->
  P (MkdirSync dependencyDir) ->
  (forall cmd args, P (Spawn cmd args)) ->
  (forall src dst, P (RenameSync src dst)) ->
  (forall data, P (WriteFileSync (api_key_h w) data)) ->
  Forall P (trace (install w fuel)).
Proof.
  intros Hlog Hmk Hspawn Hren Hwrite.
  assert (H : emits P (fun _ => True)
                (pending <- main_body w fuel ;; pending)).
  { unfold main_body.
    apply emits_bind with (Q := fun pending => emits P (fun _ => True) pending);
      [| intros pending Hp; exact Hp].
    apply emits_bind with (Q := fun pending => emits P (fun _ => True) pending);
      [apply provision_library_emits; auto |].
    intros pending Hp.
    apply emits_bind with (Q := fun _ => True);
      [apply apply_license_emits; auto |].
    intros _ _. apply emits_ret. exact Hp. }
  destruct (H []) as (evs & E & Hevs & _). unfold install. rewrite E.
  exact Hevs.
Qed.

Lemma search_loop_locate (w : World) (dir : list string) (fuel : nat)
    (tr : list event) :
  (length dir < fuel)%nat ->
  search_loop w fuel dir tr =
    match locate w dir with
    | Some licensePath => Next licensePath tr
    | None =>
        Halt (Exit 1)
             (tr ++ [Log "Cannot locate libxl-license.json; terminating"])
    end.
Proof.
  intros Hfuel.
  pose proof (search_loop_from w dir (length dir) fuel tr (le_n _) Hfuel) as H.
  rewrite firstn_all in H. rewrite H. unfold locate, ancestors.
  destruct (find _ _); reflexivity.
Qed.

(** C8. The upward search for the license file terminates from every
    starting directory.  Each iteration finds [libxl-license.json] in the
    current directory, or moves to the parent, which is strictly shorter,
    or, when the parent equals the current directory, logs and exits with
    code 1.  With more iterations allowed than the starting directory has
    segments, the loop ends, never for want of iterations: with the
    license file of the nearest directory that has one, or else with exit
    code 1. *)
Theorem license_search_terminates (w : World) (dir : list string)
    (fuel : nat) (tr : list event) :
  (length dir < fuel)%nat ->
  (forall d tr',
      (existsSync w (join (Abs d) licenseFilename) = true /\
       search_body w d tr' = Next (inr (join (Abs d) licenseFilename)) tr') \/
      (existsSync w (join (Abs d) licenseFilename) = false /\
       parent d <> d /\ (length (parent d) < length d)%nat /\
       search_body w d tr' = Next (inl (parent d)) tr') \/
      (existsSync w (join (Abs d) licenseFilename) = false /\
       parent d = d /\
       search_body w d tr' =
         Halt (Exit 1)
              (tr' ++ [Log "Cannot locate libxl-license.json; terminating"]))) /\
  search_loop w fuel dir tr =
    match locate w dir with
    | Some licensePath => Next licensePath tr
    | None =>
        Halt (Exit 1)
             (tr ++ [Log "Cannot locate libxl-license.json; terminating"])
    end /\
  (forall tr', search_loop w fuel dir tr <> Halt OutOfFuel tr').
Proof.
  intros Hfuel.
  split; [| split; [apply search_loop_locate; exact Hfuel |
                    rewrite (search_loop_locate _ _ _ _ Hfuel);
                    destruct (locate w dir); discriminate]].
  - intros d tr'. rewrite search_body_cases.
    destruct (existsSync w (join (Abs d) licenseFilename)); [left; auto |].
    right. destruct d as [|a l] eqn:E.
    + right. repeat split. 
    + left. rewrite <- E. assert (Hd : d <> []) by (subst d; discriminate).
      repeat split.
      * intros H. apply parent_fixed in H. contradiction.
      * apply parent_shorter. exact Hd.
Qed.

Lemma license_search_terminates_witness :
  search_loop (checkout false acme) 4 ["home"; "dev"; "node-libxl"] [] =
    Next (Abs ["home"; "libxl-license.json"]) [].
Proof.
  exact (proj1 (proj2 (license_search_terminates (checkout false acme)
                         ["home"; "dev"; "node-libxl"] 4 []
                         ltac:(simpl; lia)))).
Defined.

(** ** The run from the license search on *)

(** With the license file located and parsed and a key selected, what is
    left of [apply_license] is the truthiness test and the write. *)
Lemma apply_license_selected (w : World) (fuel : nat) (tr : list event)
    (licensePath : path) (licenses keys license : value) :
  (length (dirname w) < fuel)%nat ->
  locate w (dirname w) = Some licensePath ->
  parse_license w licensePath = Some licenses ->
  get licenses "keys" = Some keys ->
  get keys (key_name w) = Some license ->
  exists has licensee,
    has_property "licensee" licenses = Some has /\
    get licenses "licensee" = Some licensee /\
    apply_license w fuel tr =
      let tr1 := (tr ++ [Log ("Applying licenses from " ++ DQ
                              ++ show w licensePath ++ DQ)])%list in
      if truthy license then
        (contents <- try (apiKeyFileContents licensee license) ;;
         fs_call w (WriteFileSync (api_key_h w) contents))
          (if has then tr1
           else tr1 ++ [Log "Must specify a licensee in libxl-license.json"])%list
      else
        Halt (Exit 1)
             (tr1 ++ [Log ("Cannot find the license key appropriate for this "
                           ++ "platform in libxl-license.json")])%list.
Proof.
  intros Hfuel Hloc Hparse Hkeys Hkey.
  assert (Hobj : exists has licensee,
             has_property "licensee" licenses = Some has /\
             get licenses "licensee" = Some licensee).
  { destruct licenses; simpl in Hkeys; try discriminate;
      try (injection Hkeys as <-; simpl in Hkey; discriminate);
      simpl; eauto. }
  destruct Hobj as (has & licensee & Hhas & Hlic).
  exists has, licensee. split; [exact Hhas |]. split; [exact Hlic |].
  unfold apply_license, bind.
  rewrite (search_loop_locate _ _ _ _ Hfuel), Hloc.
  cbv beta iota delta [console_log]. rewrite Hparse.
  cbv beta iota delta [try ret]. rewrite select_license_key_name.
  unfold bind. rewrite Hkeys. cbv beta iota delta [try ret]. rewrite Hkey.
  cbv beta iota delta [try ret]. rewrite Hhas, Hlic.
  destruct (truthy license), has; reflexivity.
Qed.

Lemma main_body_from (w : World) (fuel : nat) (pending : script unit)
    (tr0 : list event) :
  provision_library w [] = Next pending tr0 ->
  main_body w fuel [] =
    match apply_license w fuel tr0 with
    | Next _ tr => Next pending tr
    | Halt st tr => Halt st tr
    end.
Proof.
  intros H. unfold main_body, bind. rewrite H. reflexivity.
Qed.

Lemma provision_library_present (w : World) :
  existsSync w libxlDir = true ->
  provision_library w [] =
    Next (ret tt) [Log "Libxl already downloaded, nothing to do"].
Proof.
  intros H. unfold provision_library. rewrite H. reflexivity.
Qed.

(** The events of the first statement are the first events of the run. *)
Lemma install_extends_provision (w : World) (fuel : nat) :
  exists evs,
    trace (install w fuel) = (trace (provision_library w []) ++ evs)%list.
Proof.
  unfold install, main_body, bind.
  destruct (provision_library_emits w (fun _ => True) (fun _ => True)
              (fun _ => I) I (fun _ _ => I) (fun _ => I) (fun _ _ => I) [])
    as (evs0 & E0 & _ & Hp).
  destruct (provision_library w []) as [pending tr0 | st tr0].
  - destruct (apply_license_emits w (fun _ => True) fuel
                (fun _ => I) (fun _ => I) tr0) as (evs1 & E1 & _).
    destruct (apply_license w fuel tr0) as [[] tr1 | st tr1];
      simpl in E1; subst tr1.
    + destruct (Hp pending tr0 eq_refl (tr0 ++ evs1)%list) as (evs2 & E2 & _).
      exists (evs1 ++ evs2)%list. cbn [ret trace] in *.
      rewrite E2. rewrite app_assoc. reflexivity.
    + exists evs1. reflexivity.
  - exists []. rewrite app_nil_r. reflexivity.
Qed.

Lemma provision_library_no_write (w : World) (pending : script unit)
    (tr0 : list event) :
  provision_library w [] = Next pending tr0 ->
  Forall (fun e => is_write e = false) tr0.
Proof.
  intros E.
  destruct (provision_library_emits w (fun e => is_write e = false)
              (fun _ => True) (fun _ => eq_refl) eq_refl (fun _ _ => eq_refl)
              (fun _ => I) (fun _ _ => I) [])
    as (evs & Et & Hevs & _).
  rewrite E in Et. simpl in Et. subst tr0. exact Hevs.
Qed.

Lemma darwin_not_win (p : string) :
  prefix "darwin" p = true -> prefix "win" p = false.
Proof.
  destruct p as [|c r]; cbn [prefix]; [discriminate |].
  destruct (ascii_dec "d" c) as [E | E]; [| discriminate].
  subst c. intros _. reflexivity.
Qed.

(** ** Provisioning of the library *)

(** C7. When [deps/libxl] exists as the script starts, the run consists
    of console output and at most the write of the generated header
    [src/api_key.h] next to the script: nothing is spawned (no
    extraction), nothing is renamed and no directory is created. *)
Theorem existing_libxl_left_alone (w : World) (fuel : nat) :
  existsSync w libxlDir = true ->
  Forall (leaves_deps_alone w) (trace (install w fuel)) /\
  provision_library w [] =
    Next (ret tt) [Log "Libxl already downloaded, nothing to do"].
Proof.
  intros H. split; [| apply provision_library_present; exact H].
  unfold install, main_body, bind.
  rewrite (provision_library_present w H).
  destruct (apply_license_emits w (leaves_deps_alone w) fuel
              (fun _ => I) (fun _ => eq_refl)
              [Log "Libxl already downloaded, nothing to do"])
    as (evs & E & Hevs & _).
  assert (Hall : Forall (leaves_deps_alone w)
                   (trace (apply_license w fuel
                             [Log "Libxl already downloaded, nothing to do"]))).
  { rewrite E. apply Forall_app. split; [| exact Hevs].
    constructor; [exact I | constructor]. }
  destruct (apply_license w fuel _) as [[] tr | st tr]; exact Hall.
Qed.

Lemma existing_libxl_left_alone_witness :
  Forall (leaves_deps_alone (checkout true acme))
         (trace (install (checkout true acme) 4)) /\
  provision_library (checkout true acme) [] =
    Next (ret tt) [Log "Libxl already downloaded, nothing to do"].
Proof.
  exact (existing_libxl_left_alone (checkout true acme) 4 eq_refl).
Defined.

(** C4, as the claim states it, fails: with [deps/libxl] absent, the run
    on a Linux checkout makes no FTP connection at all; the archive comes
    from the local [deps_archive] directory. *)
Lemma download_counterexample :
  existsSync (checkout false acme) libxlDir = false /\
  ~ In (FtpConnect ftpHost) (trace (install (checkout false acme) 4)) /\
  In (FtpConnect ftpHost) (trace (download [])).
Proof.
  split; [reflexivity |]. split.
  - vm_compute. intros H.
    repeat (destruct H as [H | H]; [discriminate H |]). exact H.
  - vm_compute. right. left. reflexivity.
Qed.

(** C4, amended.  No run of the script connects to the FTP host.  When
    [deps/libxl] is absent, the script takes the first entry of the local
    directory [deps_archive] whose name starts with [libxl-] and the
    platform's suffix ([win], [mac] or [lin]) and starts the extractor on
    it, with the dependency directory as target. *)
Theorem local_archive_extracted (w : World) (fuel : nat) :
  Forall (fun e => is_ftp e = false) (trace (install w fuel)) /\
  (forall files name,
      existsSync w libxlDir = false ->
      existsSync w dependencyDir = true \/
        throws w (MkdirSync dependencyDir) = false ->
      readdirSync w dependencyArchiveDir = Some files ->
      find (prefix ("libxl-" ++ archive_suffix w)) files = Some name ->
      In (extraction w (join dependencyArchiveDir name))
         (trace (install w fuel))).
Proof.
  split.
  - apply install_emits; reflexivity.
  - intros files name Habsent Hdeps Hlist Hfind.
    destruct (install_extends_provision w fuel) as (evs & E). rewrite E.
    apply in_or_app. left.
    unfold provision_library. rewrite Habsent.
    unfold archive_suffix in Hfind.
    unfold bind, finder, bind. rewrite Hlist.
    cbv beta iota delta [try ret]. rewrite Hfind.
    assert (Hmk : exists tr,
               when (negb (existsSync w dependencyDir))
                    (fs_call w (MkdirSync dependencyDir)) [] = Next tt tr).
    { destruct (existsSync w dependencyDir); simpl.
      - eexists. reflexivity.
      - destruct Hdeps as [Hd | Hd]; [discriminate |].
        unfold fs_call. rewrite Hd. eexists. reflexivity. }
    destruct Hmk as (tr & ->).
    unfold extraction, extractor, execute, bind, console_log.
    cbv beta iota delta [option_map show_opt].
    destruct (isWin w).
    + destruct (spawned w _ _); cbn [trace];
        apply in_or_app; right; left; reflexivity.
    + destruct (spawned w _ _); cbn [trace];
        apply in_or_app; right; left; reflexivity.
Qed.

Lemma local_archive_extracted_witness :
  In (Spawn "tar"
        [VStr "-C"; VStr "deps"; VStr "--no-same-owner"; VStr "-zxf";
         VStr "deps_archive/libxl-lin-3.6.5.0.tar.gz"])
     (trace (install (checkout false acme) 4)).
Proof.
  exact (proj2 (local_archive_extracted (checkout false acme) 4)
           ["README"; "libxl-lin-3.6.5.0.tar.gz"; "libxl-mac-3.6.5.0.tar.gz"]
           "libxl-lin-3.6.5.0.tar.gz"
           eq_refl (or_intror eq_refl) eq_refl eq_refl).
Defined.

(** ** The license key and the header *)

(** C6. The script reads the key [windows] when the platform string
    starts with [win], the key [mac] on [darwin] (any platform string that
    starts so), and the key [linux] on every other platform.  If the key
    it reads is absent or otherwise falsy, the run ends with exit code 1
    right after the message, and no file is written. *)
Theorem license_key_selection (w : World) :
  (prefix "win" (platform w) = true -> key_name w = "windows") /\
  (prefix "darwin" (platform w) = true -> key_name w = "mac") /\
  (prefix "win" (platform w) = false ->
   prefix "darwin" (platform w) = false -> key_name w = "linux") /\
  (forall licenses,
      select_license w licenses =
        (keys <- try (get licenses "keys") ;; try (get keys (key_name w)))) /\
  (forall fields,
      own (key_name w) fields = None ->
      get (VObj fields) (key_name w) = Some VUndefined /\
      truthy VUndefined = false) /\
  (forall fuel pending tr0 licensePath licenses keys license,
      provision_library w [] = Next pending tr0 ->
      (length (dirname w) < fuel)%nat ->
      locate w (dirname w) = Some licensePath ->
      parse_license w licensePath = Some licenses ->
      get licenses "keys" = Some keys ->
      get keys (key_name w) = Some license ->
      truthy license = false ->
      install w fuel =
        Halt (Exit 1)
             (tr0 ++ [Log ("Applying licenses from " ++ DQ
                           ++ show w licensePath ++ DQ);
                      Log ("Cannot find the license key appropriate for this "
                           ++ "platform in libxl-license.json")]) /\
      Forall (fun e => is_write e = false) (trace (install w fuel))).
Proof.
  split; [| split; [| split; [| split; [| split]]]].
  - unfold key_name, isWin. intros ->. reflexivity.
  - unfold key_name, isWin, isMac. intros H.
    rewrite (darwin_not_win _ H), H. reflexivity.
  - unfold key_name, isWin, isMac. intros -> ->. reflexivity.
  - apply select_license_key_name.
  - intros fields H. simpl. rewrite H. split; reflexivity.
  - intros fuel pending tr0 licensePath licenses keys license
           Hprov Hfuel Hloc Hparse Hkeys Hkey Hfalsy.
    destruct (apply_license_selected w fuel tr0 _ _ _ _
                Hfuel Hloc Hparse Hkeys Hkey)
      as (has & licensee & _ & _ & Happly).
    rewrite Hfalsy in Happly. cbv zeta in Happly.
    assert (E : install w fuel =
                Halt (Exit 1)
                  (tr0 ++ [Log ("Applying licenses from " ++ DQ
                                ++ show w licensePath ++ DQ);
                           Log ("Cannot find the license key appropriate for this "
                                ++ "platform in libxl-license.json")])).
    { unfold install, bind. rewrite (main_body_from w fuel _ _ Hprov), Happly.
      rewrite <- app_assoc. reflexivity. }
    split; [exact E |]. rewrite E. cbn [trace].
    apply Forall_app. split.
    + exact (provision_library_no_write w _ _ Hprov).
    + repeat constructor.
Qed.

Lemma license_key_selection_witness :
  install (checkout false (license_doc (Some (VStr "Acme Inc")) None)) 4 =
    Halt (Exit 1)
      [MkdirSync (Rel ["deps"]);
       Log "Extracting deps_archive/libxl-lin-3.6.5.0.tar.gz ...";
       Spawn "tar"
         [VStr "-C"; VStr "deps"; VStr "--no-same-owner"; VStr "-zxf";
          VStr "deps_archive/libxl-lin-3.6.5.0.tar.gz"];
       Log ("Applying licenses from " ++ DQ ++ "/home/libxl-license.json" ++ DQ);
       Log "Cannot find the license key appropriate for this platform in libxl-license.json"].
Proof.
  exact (proj1
    (proj2 (proj2 (proj2 (proj2 (proj2
       (license_key_selection
          (checkout false (license_doc (Some (VStr "Acme Inc")) None)))))))
       4 _ _ (Abs ["home"; "libxl-license.json"]) _ _ VUndefined
       eq_refl ltac:(simpl; lia) eq_refl eq_refl eq_refl eq_refl eq_refl)).
Defined.

(** C10. If the license file is an object without a [licensee] field but
    with a truthy key for the platform, the script does not exit: it logs
    the message about the licensee and goes on to build the header, in
    which [API_KEY_NAME] is the text [undefined], and to write it.  This
    holds for every key that converts to a string, as every string,
    number and boolean does.  A key that does not convert (an object with
    a [toString] member of its own, or an array that holds one) is truthy
    as well: with it the concatenation throws, after the message and
    before the write. *)
Theorem missing_licensee_still_writes (w : World) (fuel : nat)
    (pending : script unit) (tr0 : list event) (licensePath : path)
    (fields : list (string * value)) (keys license : value) :
  provision_library w [] = Next pending tr0 ->
  (length (dirname w) < fuel)%nat ->
  locate w (dirname w) = Some licensePath ->
  parse_license w licensePath = Some (VObj fields) ->
  own "licensee" fields = None ->
  own "keys" fields = Some keys ->
  get keys (key_name w) = Some license ->
  truthy license = true ->
  let logged :=
    (tr0 ++ [Log ("Applying licenses from " ++ DQ
                  ++ show w licensePath ++ DQ);
             Log "Must specify a licensee in libxl-license.json"])%list in
  main_body w fuel [] =
    match to_string license with
    | Some key =>
        let header :=
          "#define INCLUDE_API_KEY 1" ++ LF ++
          "#define API_KEY_NAME " ++ DQ ++ "undefined" ++ DQ ++ LF ++
          "#define API_KEY_KEY " ++ DQ ++ key ++ DQ ++ LF in
        let tr := (logged ++ [WriteFileSync (api_key_h w) header])%list in
        if throws w (WriteFileSync (api_key_h w) header)
        then Halt Uncaught tr
        else Next pending tr
    | None => Halt Uncaught logged
    end.
Proof.
  intros Hprov Hfuel Hloc Hparse Hnone Hkeys Hkey Htruthy logged.
  assert (Hget : get (VObj fields) "keys" = Some keys)
    by (simpl; rewrite Hkeys; reflexivity).
  destruct (apply_license_selected w fuel tr0 _ _ _ _
              Hfuel Hloc Hparse Hget Hkey)
    as (has & licensee & Hhas & Hlic & Happly).
  simpl in Hhas, Hlic. rewrite Hnone in Hhas, Hlic.
  injection Hhas as <-. injection Hlic as <-.
  rewrite Htruthy in Happly. cbv zeta in Happly.
  rewrite (main_body_from w fuel _ _ Hprov), Happly.
  unfold bind, apiKeyFileContents. cbn [to_string].
  subst logged. rewrite <- !app_assoc. cbn [app].
  destruct (to_string license) as [key |]; cbn [try ret throw];
    [| reflexivity].
  unfold fs_call. cbv zeta. rewrite <- !app_assoc. cbn [app].
  destruct (throws w _); reflexivity.
Qed.

Lemma missing_licensee_still_writes_witness :
  main_body (checkout true (license_doc None (Some (VStr "linux-key")))) 4 [] =
    Next (ret tt)
      [Log "Libxl already downloaded, nothing to do";
       Log ("Applying licenses from " ++ DQ ++ "/home/libxl-license.json" ++ DQ);
       Log "Must specify a licensee in libxl-license.json";
       WriteFileSync (Abs ["home"; "dev"; "node-libxl"; "src"; "api_key.h"])
         ("#define INCLUDE_API_KEY 1" ++ LF ++
          "#define API_KEY_NAME " ++ DQ ++ "undefined" ++ DQ ++ LF ++
          "#define API_KEY_KEY " ++ DQ ++ "linux-key" ++ DQ ++ LF)] /\
  main_body (checkout true object_key) 4 [] =
    Halt Uncaught
      [Log "Libxl already downloaded, nothing to do";
       Log ("Applying licenses from " ++ DQ ++ "/home/libxl-license.json" ++ DQ);
       Log "Must specify a licensee in libxl-license.json"].
Proof.
  split.
  - exact (missing_licensee_still_writes
             (checkout true (license_doc None (Some (VStr "linux-key")))) 4
             (ret tt) [Log "Libxl already downloaded, nothing to do"]
             (Abs ["home"; "libxl-license.json"]) _ _ (VStr "linux-key")
             eq_refl ltac:(simpl; lia) eq_refl eq_refl eq_refl eq_refl
             eq_refl eq_refl).
  - exact (missing_licensee_still_writes
             (checkout true object_key) 4
             (ret tt) [Log "Libxl already downloaded, nothing to do"]
             (Abs ["home"; "libxl-license.json"]) _ _
             (VObj [("toString", VNum "1")])
             eq_refl ltac:(simpl; lia) eq_refl eq_refl eq_refl eq_refl
             eq_refl eq_refl).
Defined.

(** *** Strings and lines *)

Lemma append_assoc (a b c : string) : (a ++ b) ++ c = a ++ (b ++ c).
Proof.
  induction a as [|x a IH]; simpl; [reflexivity | rewrite IH; reflexivity].
Qed.

Lemma length_append (a b : string) :
  String.length (a ++ b) = (String.length a + String.length b)%nat.
Proof.
  induction a as [|x a IH]; simpl; [reflexivity | rewrite IH; reflexivity].
Qed.

Lemma prefix_append (a b : string) : prefix a (a ++ b) = true.
Proof.
  induction a as [|x a IH]; cbn [append prefix].
  - destruct b; reflexivity.
  - destruct (ascii_dec x x); [exact IH | congruence].
Qed.


Lemma substring_append_left (a b : string) :
  substring 0 (String.length a) (a ++ b) = a.
Proof.
  induction a as [|x a IH]; simpl.
  - destruct b; reflexivity.
  - rewrite IH. reflexivity.
Qed.
















(** ** The asynchronous methods of [Book] *)

Section Workers.

Context {B : Type} {libxl : Libxl B}.

(** The native library is left as the native call leaves it. *)
Lemma run_native_after (r : request) (wk : Worker) (that : B) :
  queue r = Return wk -> snd (run wk that) = native_after r that.
Proof.
  destruct r as [f | f | | b | i | [ | | | | | ]]; simpl; intros E;
    try discriminate E; injection E as <-; unfold run; simpl.
  - destruct (load f that); reflexivity.
  - destruct (save f that); reflexivity.
  - destruct (saveRaw that) as [[ok data] that']; reflexivity.
  - destruct (loadRaw b that); reflexivity.
  - destruct (getPicture i that) as [[t data] that']; reflexivity.
  - destruct (addPicture2 data that); reflexivity.
  - destruct (addPicture s that); reflexivity.
Qed.

(** The calls a queued worker makes on the callback, by the outcome of
    the native call. *)
Lemma run_calls (r : request) (wk : Worker) (that : B) :
  queue r = Return wk ->
  fst (run wk that) =
    (if native_failed r that
     then [[Error (errorMessage (native_after r that))]]
     else [Undefined :: native_results r that]) \/
  native_failed r that = false /\ native_results r that = [] /\
  fst (run wk that) = [[]].
Proof.
  destruct r as [f | f | | b | i | [ | | | | | ]]; simpl; intros E;
    try discriminate E; injection E as <-; unfold run; simpl.
  - destruct (load f that) as [[] that']; simpl; auto.
  - destruct (save f that) as [[] that']; simpl; auto.
  - destruct (saveRaw that) as [[[] data] that']; simpl; auto.
  - destruct (loadRaw b that) as [[] that']; simpl; auto.
  - destruct (getPicture i that) as [[t data] that']; simpl.
    destruct (t =? PICTURETYPE_ERROR)%Z; simpl; auto.
  - destruct (addPicture2 data that) as [index that']; simpl.
    destruct (index =? -1)%Z; simpl; auto.
  - destruct (addPicture s that) as [index that']; simpl.
    destruct (index =? -1)%Z; simpl; auto.
Qed.

(** Each method queues a worker, unless [addPictureAsync] is handed
    something other than a string or a buffer. *)
Lemma queue_accepted (r : request) :
  accepted r = true -> exists wk, queue r = Return wk.
Proof.
  destruct r as [f | f | | b | i | [ | | | | | ]]; simpl; intros E;
    try discriminate E; eexists; reflexivity.
Qed.

(** C1. Every asynchronous book method (load, write, writeRaw, loadRaw,
    getPictureAsync, and addPictureAsync with a file name or a buffer)
    queues a worker, and that worker invokes the callback exactly once by
    the time it has completed, whether the native call succeeded or
    failed. *)
Theorem callback_exactly_once (r : request) (that : B) :
  accepted r = true ->
  exists wk, queue r = Return wk /\ length (fst (run wk that)) = 1%nat.
Proof.
  intros Ha. destruct (queue_accepted r Ha) as (wk & E).
  exists wk. split; [exact E |].
  destruct (run_calls r wk that E) as [H | (_ & _ & H)];
    rewrite H; [destruct (native_failed r that) |]; reflexivity.
Qed.

(** C2. Every asynchronous book method queues a worker such that, when
    its native call fails, the callback receives the error message of the
    native library as its first argument and nothing else; when the call
    succeeds, the first argument reads as undefined and the arguments
    after it are the results of the call (none for load, write and
    loadRaw; the buffer for writeRaw; the picture type and the data for
    getPictureAsync; the index for addPictureAsync). *)
Theorem callback_error_or_results (r : request) (that : B) :
  accepted r = true ->
  exists wk,
    queue r = Return wk /\
    (native_failed r that = true ->
     fst (run wk that) = [[Error (errorMessage (native_after r that))]]) /\
    (native_failed r that = false ->
     exists args,
       fst (run wk that) = [args] /\
       argument 0 args = Undefined /\
       skipn 1 args = native_results r that).
Proof.
  intros Ha. destruct (queue_accepted r Ha) as (wk & E).
  exists wk. split; [exact E |]. split; intros Hf.
  - destruct (run_calls r wk that E) as [H | (H0 & _)];
      [rewrite Hf in H; exact H | congruence].
  - destruct (run_calls r wk that E) as [H | (_ & Hres & H)].
    + rewrite Hf in H. exists (Undefined :: native_results r that).
      repeat split. exact H.
    + exists []. rewrite Hres. repeat split. exact H.
Qed.

End Workers.

Lemma callback_exactly_once_witness :
  (exists wk, queue (libxl := recorder) (Load "book.xlsx") = Return wk /\
              length (fst (run wk [])) = 1%nat) /\
  (exists wk, queue (libxl := recorder) (BookCc.Write "book.xlsx") = Return wk /\
              length (fst (run wk [])) = 1%nat) /\
  (exists wk, queue (libxl := recorder) (AddPictureAsync (Text "logo.png"))
                = Return wk /\
              length (fst (run wk [])) = 1%nat).
Proof.
  split; [| split].
  - exact (callback_exactly_once (libxl := recorder)
             (Load "book.xlsx") [] eq_refl).
  - exact (callback_exactly_once (libxl := recorder)
             (BookCc.Write "book.xlsx") [] eq_refl).
  - exact (callback_exactly_once (libxl := recorder)
             (AddPictureAsync (Text "logo.png")) [] eq_refl).
Defined.

Lemma callback_error_or_results_witness :
  (exists wk,
     queue (libxl := recorder) (Load "book.xlsx") = Return wk /\
     fst (run wk []) = [[Error "can't open file"]]) /\
  (exists wk,
     queue (libxl := recorder) (GetPictureAsync 0) = Return wk /\
     exists args,
       fst (run wk []) = [args] /\
       argument 0 args = Undefined /\
       skipn 1 args = [Integer 0; Buffer [Byte.x89]]).
Proof.
  split.
  - destruct (callback_error_or_results (libxl := recorder)
                (Load "book.xlsx") [] eq_refl) as (wk & E & Hfail & _).
    exists wk. split; [exact E | exact (Hfail eq_refl)].
  - destruct (callback_error_or_results (libxl := recorder)
                (GetPictureAsync 0) [] eq_refl) as (wk & E & _ & Hok).
    exists wk. split; [exact E | exact (Hok eq_refl)].
Defined.

(** * Further properties *)

From Stdlib Require Import Permutation.

Import Downloader MoreExamples Effects BookSync.

(** ** [consumeDownload] *)

Lemma written_app (a b : list output) :
  written (a ++ b) = (written a ++ written b)%list.
Proof.
  induction a as [|[c| |n d] a IH]; simpl; rewrite ?IH; reflexivity.
Qed.

Lemma ended_app (a b : list output) : ended (a ++ b) = (ended a + ended b)%nat.
Proof.
  unfold ended. rewrite filter_app, length_app. reflexivity.
Qed.

Lemma on_outstream_app (a b : list output) :
  on_outstream (a ++ b) = (on_outstream a ++ on_outstream b)%list.
Proof.
  unfold on_outstream. apply filter_app.
Qed.

Lemma on_outstream_writes (l : list chunk) :
  on_outstream (map (fun c => Write (Some c)) l) =
    map (fun c => Write (Some c)) l.
Proof.
  unfold on_outstream. induction l as [|x l IH]; cbn; [| rewrite IH];
    reflexivity.
Qed.

Lemma firstn_next {A : Type} (l : list A) (n : nat) (x : A) :
  nth_error l n = Some x -> firstn (S n) l = (firstn n l ++ [x])%list.
Proof.
  revert n. induction l as [|a l IH]; intros [|n] H; simpl in *;
    try discriminate.
  - injection H as ->. reflexivity.
  - rewrite (IH n H). reflexivity.
Qed.

Lemma nth_error_in_range {A : Type} (l : list A) (n : nat) :
  (n < length l)%nat -> exists x, nth_error l n = Some x.
Proof.
  intros H. destruct (nth_error l n) as [x|] eqn:E; [eauto |].
  apply nth_error_None in E. lia.
Qed.

(** Reduces the field reads of a handler's result. *)
Ltac fields :=
  cbn [chunks instreamTerminated outstreamTerminated buffering chunkIdx
       totalSize outputs write set_buffering terminateOutstream on_close
       snd fst negb].

Lemma invariant_start : invariant start.
Proof.
  constructor; simpl; auto; discriminate.
Qed.

Lemma firstn_within {A : Type} (l l' : list A) (n : nat) :
  (n <= length l)%nat -> firstn n (l ++ l') = firstn n l.
Proof.
  intros H. rewrite firstn_app.
  replace (n - length l)%nat with 0%nat by lia.
  cbn [firstn]. apply app_nil_r.
Qed.

Lemma skipn_next {A : Type} (l : list A) (n k : nat) (x : A) :
  nth_error l n = Some x ->
  firstn (S k) (skipn n l) = x :: firstn k (skipn (S n) l).
Proof.
  revert n. induction l as [|a l IH]; intros [|n] E; simpl in *;
    try discriminate.
  - injection E as ->. reflexivity.
  - apply IH. exact E.
Qed.

Section ConsumeFacts.

Variable writable : nat -> bool.

(** One write within range keeps what the invariant says of the outputs. *)
Lemma write_spec (s : consumer) :
  invariant s -> (chunkIdx s < length (chunks s))%nat ->
  exists c,
    nth_error (chunks s) (chunkIdx s) = Some c /\
    outputs (snd (write writable s)) = (outputs s ++ [Write (Some c)])%list /\
    written (outputs (snd (write writable s))) =
      map Some (firstn (S (chunkIdx s)) (chunks s)).
Proof.
  intros I H. destruct (nth_error_in_range _ _ H) as (c & E).
  exists c. fields. rewrite E. repeat split.
  rewrite written_app, (written_prefix _ I), (firstn_next _ _ _ E), map_app.
  reflexivity.
Qed.

Lemma on_data_invariant (c : chunk) (s : consumer) :
  invariant s -> invariant (on_data writable c s).
Proof.
  intros I. unfold on_data. fields.
  pose proof (idx_in_range _ I) as R.
  assert (Hsize : totalSize s + length c =
                  length (List.concat (chunks s ++ [c]))).
  { rewrite concat_app, length_app, (size_counted _ I). cbn [List.concat].
    rewrite app_nil_r. reflexivity. }
  destruct (buffering s) eqn:B; fields.
  - constructor; fields.
    + rewrite length_app. simpl. lia.
    + discriminate.
    + rewrite (written_prefix _ I), firstn_within by lia. reflexivity.
    + exact Hsize.
    + apply (ended_flag _ I).
    + apply (ended_after_end _ I).
  - pose proof (flushed _ I B) as F.
    assert (E : nth_error (chunks s ++ [c]) (chunkIdx s) = Some c).
    { rewrite F, nth_error_app2, Nat.sub_diag by lia. reflexivity. }
    constructor; fields.
    + rewrite length_app. simpl. lia.
    + intros _. rewrite length_app. simpl. lia.
    + rewrite E, written_app, (written_prefix _ I), (firstn_next _ _ _ E),
        map_app, firstn_within by lia. reflexivity.
    + exact Hsize.
    + rewrite ended_app, (ended_flag _ I). cbn. lia.
    + apply (ended_after_end _ I).
Qed.

Lemma terminate_invariant (s : consumer) :
  invariant s -> instreamTerminated s = true ->
  invariant (terminateOutstream s).
Proof.
  intros I T. constructor; fields; try apply I; auto.
  - destruct (outstreamTerminated s) eqn:O.
    + apply (written_prefix _ I).
    + rewrite written_app, (written_prefix _ I). cbn. apply app_nil_r.
  - pose proof (ended_flag _ I) as E.
    destruct (outstreamTerminated s); [exact E |].
    rewrite ended_app, E. reflexivity.
Qed.

Lemma on_end_invariant (s : consumer) : invariant s -> invariant (on_end s).
Proof.
  intros I. unfold on_end. fields.
  assert (I' : invariant
                 {| chunks := chunks s; instreamTerminated := true;
                    outstreamTerminated := outstreamTerminated s;
                    buffering := buffering s; chunkIdx := chunkIdx s;
                    totalSize := totalSize s; outputs := outputs s |}).
  { constructor; fields; try apply I; auto. }
  destruct (buffering s); fields;
    [exact I' | apply terminate_invariant; [exact I' | reflexivity]].
Qed.

Lemma on_close_invariant (s : consumer) : invariant s -> invariant (on_close s).
Proof.
  intros I. constructor; fields; try apply I.
  - rewrite written_app, (written_prefix _ I). cbn. apply app_nil_r.
  - rewrite ended_app, (ended_flag _ I). cbn. lia.
Qed.

(** The loop of the [drain] handler ends within the iterations it is
    given, writes the chunks from [chunkIdx] on, in order, and stops at
    the first write that is refused or when none is left. *)
Lemma drain_loop_spec (fuel : nat) :
  forall s, invariant s ->
    (length (chunks s) - chunkIdx s < fuel)%nat ->
    exists s',
      drain_loop writable fuel s = Some s' /\ invariant s' /\
      chunks s' = chunks s /\
      instreamTerminated s' = instreamTerminated s /\
      outstreamTerminated s' = outstreamTerminated s /\
      totalSize s' = totalSize s /\
      (chunkIdx s <= chunkIdx s')%nat /\
      outputs s' =
        (outputs s ++
         map (fun c => Write (Some c))
             (firstn (chunkIdx s' - chunkIdx s)
                     (skipn (chunkIdx s) (chunks s))))%list /\
      ((forall i, (chunkIdx s <= i)%nat -> writable i = true) ->
       buffering s' = false).
Proof.
  induction fuel as [|fuel IH]; intros s I Hf; [lia |].
  cbn [drain_loop]. fields.
  destruct (Nat.ltb_spec (chunkIdx s) (length (chunks s))) as [Hlt | Hge].
  - destruct (nth_error_in_range _ _ Hlt) as (c & Ec).
    rewrite Ec.
    match goal with
    | |- exists s', (if _ then drain_loop _ _ ?s1 else _) = _ /\ _ =>
        set (s1' := s1)
    end.
    assert (I1 : invariant s1').
    { constructor; subst s1'; fields; try apply I; try lia; try discriminate.
      - rewrite written_app, (written_prefix _ I),
          (firstn_next _ _ _ Ec), map_app. reflexivity.
      - rewrite ended_app, (ended_flag _ I). cbn. lia. }
    destruct (writable (chunkIdx s)) eqn:W.
    + destruct (IH _ I1) as (s' & E & I' & Hc & Hi & Ho & Ht & Hidx & Hout & Hb).
      { subst s1'. fields. lia. }
      subst s1'. revert Hc Hi Ho Ht Hidx Hout Hb. fields.
      intros Hc Hi Ho Ht Hidx Hout Hb.
      exists s'. split; [exact E |]. split; [exact I' |].
      repeat split; auto; try lia.
      * rewrite Hout, <- app_assoc. f_equal.
        replace (chunkIdx s' - chunkIdx s)%nat
          with (S (chunkIdx s' - S (chunkIdx s)))%nat by lia.
        rewrite (skipn_next _ _ _ _ Ec). reflexivity.
      * intros Hall. apply Hb. intros i Hi'. apply Hall. lia.
    + exists s1'. split; [reflexivity |]. split; [exact I1 |].
      subst s1'. fields. repeat split; auto; try lia.
      * replace (S (chunkIdx s) - chunkIdx s)%nat with 1%nat by lia.
        rewrite (skipn_next _ _ 0 _ Ec). reflexivity.
      * intros Hall. rewrite (Hall (chunkIdx s) (le_n _)) in W. discriminate.
  - exists (set_buffering false s). split; [reflexivity |]. split.
    { constructor; fields; try apply I. intros _.
      pose proof (idx_in_range _ I). lia. }
    fields. repeat split; auto; try lia.
    + rewrite Nat.sub_diag. cbn [firstn map]. rewrite app_nil_r. reflexivity.
Qed.

Lemma on_drain_spec (s : consumer) :
  invariant s ->
  exists s1 s',
    drain_loop writable (S (length (chunks s) - chunkIdx s)) s = Some s1 /\
    on_drain writable s = Some s' /\ invariant s' /\ invariant s1 /\
    s' = (if negb (buffering s1) && instreamTerminated s1
          then terminateOutstream s1 else s1) /\
    chunks s1 = chunks s /\
    instreamTerminated s1 = instreamTerminated s /\
    outstreamTerminated s1 = outstreamTerminated s /\
    totalSize s1 = totalSize s /\
    (chunkIdx s <= chunkIdx s1)%nat /\
    outputs s1 =
      (outputs s ++
       map (fun c => Write (Some c))
           (firstn (chunkIdx s1 - chunkIdx s)
                   (skipn (chunkIdx s) (chunks s))))%list /\
    ((forall i, (chunkIdx s <= i)%nat -> writable i = true) ->
     buffering s1 = false).
Proof.
  intros I.
  destruct (drain_loop_spec (S (length (chunks s) - chunkIdx s)) s I)
    as (s1 & E & I1 & Hc & Hi & Ho & Ht & Hidx & Hout & Hb); [lia |].
  exists s1. eexists. unfold on_drain. rewrite E.
  split; [reflexivity |]. split; [reflexivity |].
  split; [| split; [exact I1 | repeat split; auto]].
  destruct (buffering s1); cbn [negb andb]; [exact I1 |].
  destruct (instreamTerminated s1) eqn:T; [| exact I1].
  apply terminate_invariant; assumption.
Qed.

Lemma handle_invariant (e : stream_event) (s : consumer) :
  invariant s ->
  exists s', handle writable e s = Some s' /\ invariant s' /\
             chunks s' = (chunks s ++ received [e])%list.
Proof.
  intros I. destruct e as [c | | |]; cbn [handle received].
  - eexists. split; [reflexivity |].
    split; [apply on_data_invariant; exact I |].
    unfold on_data. fields. destruct (buffering s); reflexivity.
  - eexists. split; [reflexivity |].
    split; [apply on_end_invariant; exact I |].
    unfold on_end. fields. rewrite app_nil_r.
    destruct (buffering s); reflexivity.
  - destruct (on_drain_spec s I)
      as (s1 & s' & _ & E & I' & _ & -> & Hc & _).
    eexists. split; [exact E |]. split; [exact I' |]. rewrite app_nil_r.
    destruct (negb (buffering s1) && instreamTerminated s1); exact Hc.
  - eexists. split; [reflexivity |].
    split; [apply on_close_invariant; exact I |].
    fields. rewrite app_nil_r. reflexivity.
Qed.

Lemma consume_invariant (evs : list stream_event) :
  forall s, invariant s ->
    exists s', consume writable evs s = Some s' /\ invariant s' /\
               chunks s' = (chunks s ++ received evs)%list.
Proof.
  induction evs as [|e evs IH]; intros s I.
  - exists s. cbn. rewrite app_nil_r. auto.
  - destruct (handle_invariant e s I) as (s1 & E1 & I1 & C1).
    destruct (IH s1 I1) as (s' & E & I' & C).
    exists s'. cbn [consume]. rewrite E1. split; [exact E |].
    split; [exact I' |]. rewrite C, C1, <- app_assoc.
    destruct e; reflexivity.
Qed.

Lemma handle_follows_input (e : stream_event) (s s' : consumer) :
  invariant s -> follows_input s ->
  (instreamTerminated s = true -> no_data [e] = true) ->
  handle writable e s = Some s' -> follows_input s'.
Proof.
  intros I [F1 F2] Hp H. pose proof (idx_in_range _ I) as R.
  destruct e as [c | | |]; cbn [handle] in H.
  - injection H as <-.
    assert (O : outstreamTerminated s = false).
    { destruct (outstreamTerminated s) eqn:O; [| reflexivity].
      pose proof (Hp (ended_after_end _ I O)). discriminate. }
    rewrite O in F1. unfold on_data. fields. unfold follows_input.
    destruct (buffering s) eqn:B; fields; rewrite O.
    + split; [| discriminate]. rewrite firstn_within by lia. exact F1.
    + split; [| discriminate]. pose proof (flushed _ I B) as Fl.
      assert (E : nth_error (chunks s ++ [c]) (chunkIdx s) = Some c).
      { rewrite Fl, nth_error_app2, Nat.sub_diag by lia. reflexivity. }
      rewrite E, on_outstream_app, F1, (firstn_next _ _ _ E), map_app,
        firstn_within by lia.
      rewrite !app_nil_r. reflexivity.
  - injection H as <-. unfold on_end, follows_input. fields.
    destruct (buffering s) eqn:B; fields; [split; assumption |].
    pose proof (flushed _ I B) as Fl.
    split; [| intros _; exact Fl].
    destruct (outstreamTerminated s); [exact F1 |].
    rewrite on_outstream_app, F1, app_nil_r. reflexivity.
  - destruct (on_drain_spec s I)
      as (s1 & s2 & _ & E & _ & I1 & -> & Hc & Hi & Ho & _ & Hidx & Hout & _).
    rewrite E in H. injection H as <-.
    assert (F' : follows_input s1).
    { unfold follows_input. rewrite Ho, Hc, Hout, on_outstream_app, F1.
      destruct (outstreamTerminated s) eqn:O.
      - pose proof (F2 eq_refl) as Fl.
        assert (chunkIdx s1 = chunkIdx s)
          by (pose proof (idx_in_range _ I1); rewrite Hc in *; lia).
        replace (chunkIdx s1 - chunkIdx s)%nat with 0%nat by lia.
        cbn [firstn map on_outstream filter]. rewrite app_nil_r.
        split; [congruence | intros _; lia].
      - split; [| discriminate]. rewrite !app_nil_r.
        rewrite on_outstream_writes, <- map_app. f_equal.
        rewrite <- (firstn_skipn (chunkIdx s) (firstn (chunkIdx s1) (chunks s))).
        rewrite firstn_firstn, Nat.min_l by lia.
        f_equal. symmetry. apply skipn_firstn_comm. }
    destruct F' as [F1' F2'].
    destruct (buffering s1) eqn:B; cbn [negb andb]; [split; assumption |].
    destruct (instreamTerminated s1); [| split; assumption].
    pose proof (flushed _ I1 B) as Fl.
    unfold follows_input. fields. split; [| intros _; exact Fl].
    destruct (outstreamTerminated s1); [exact F1' |].
    rewrite on_outstream_app, F1', app_nil_r. reflexivity.
  - injection H as <-. unfold follows_input. fields.
    rewrite on_outstream_app. cbn [on_outstream filter].
    rewrite app_nil_r. split; assumption.
Qed.

Lemma consume_follows_input (evs : list stream_event) :
  forall s s', invariant s -> follows_input s ->
    (instreamTerminated s = true -> no_data evs = true) ->
    ends_once evs = true ->
    consume writable evs s = Some s' -> follows_input s'.
Proof.
  induction evs as [|e evs IH]; intros s s' I F Hp Hw H.
  - injection H as <-. exact F.
  - cbn [consume] in H.
    destruct (handle_invariant e s I) as (s1 & E1 & I1 & _).
    rewrite E1 in H.
    assert (Hhead : instreamTerminated s = true -> no_data [e] = true).
    { intros T. specialize (Hp T). unfold no_data in *. cbn [forallb] in *.
      apply andb_true_iff in Hp. rewrite (proj1 Hp). reflexivity. }
    pose proof (handle_follows_input e s s1 I F Hhead E1) as F1.
    apply (IH s1 s' I1 F1); [| | exact H].
    + intros T1. destruct e as [c | | |]; cbn [ends_once] in Hw.
      * destruct (instreamTerminated s) eqn:T.
        -- specialize (Hp eq_refl). discriminate.
        -- cbn [handle] in E1. injection E1 as <-. revert T1.
           unfold on_data. fields. destruct (buffering s); fields; congruence.
      * apply andb_true_iff in Hw. apply Hw.
      * destruct (on_drain_spec s I)
          as (s2 & s3 & _ & E & _ & _ & -> & _ & Hi & _).
        cbn [handle] in E1. rewrite E in E1. injection E1 as <-.
        assert (T : instreamTerminated s = true).
        { rewrite <- Hi. revert T1.
          destruct (negb (buffering s2) && instreamTerminated s2); auto. }
        specialize (Hp T). unfold no_data in *. cbn [forallb] in Hp. exact Hp.
      * cbn [handle] in E1. injection E1 as <-. cbn in T1.
        specialize (Hp T1). unfold no_data in *. cbn [forallb] in Hp. exact Hp.
    + destruct e; cbn [ends_once] in Hw; try exact Hw.
      apply andb_true_iff in Hw. apply Hw.
Qed.

End ConsumeFacts.

Lemma consume_app (writable : nat -> bool) (a b : list stream_event)
    (s : consumer) :
  consume writable (a ++ b) s =
    match consume writable a s with
    | Some s' => consume writable b s'
    | None => None
    end.
Proof.
  revert s. induction a as [|e a IH]; intros s; cbn [app consume];
    [reflexivity |].
  destruct (handle writable e s); [apply IH | reflexivity].
Qed.

(** [instreamTerminated] is set by the [end] handler and by nothing else. *)
Lemma handle_instreamTerminated (writable : nat -> bool) (e : stream_event)
    (s s' : consumer) :
  invariant s -> handle writable e s = Some s' ->
  instreamTerminated s' =
    match e with End_ => true | _ => instreamTerminated s end.
Proof.
  intros I H. destruct e as [c | | |]; cbn [handle] in H.
  - injection H as <-. unfold on_data. fields.
    destruct (buffering s); reflexivity.
  - injection H as <-. unfold on_end. fields.
    destruct (buffering s); reflexivity.
  - destruct (on_drain_spec writable s I)
      as (s1 & s2 & _ & E & _ & _ & -> & _ & Hi & _).
    rewrite E in H. injection H as <-. rewrite <- Hi.
    destruct (negb (buffering s1) && instreamTerminated s1); reflexivity.
  - injection H as <-. reflexivity.
Qed.

Lemma consume_instreamTerminated (writable : nat -> bool)
    (evs : list stream_event) :
  forall s s', invariant s -> consume writable evs s = Some s' ->
    (instreamTerminated s' = true <->
     instreamTerminated s = true \/ In End_ evs).
Proof.
  induction evs as [|e evs IH]; intros s s' I H.
  - injection H as <-. cbn. tauto.
  - cbn [consume] in H.
    destruct (handle_invariant writable e s I) as (s1 & E1 & I1 & _).
    rewrite E1 in H. rewrite (IH s1 s' I1 H).
    rewrite (handle_instreamTerminated writable e s s1 I E1).
    destruct e; cbn [In]; split; intros [T | T]; auto;
      try (destruct T as [T | T]; [discriminate | auto]).
Qed.

(** X1. Whatever events arrive and whichever writes the output stream
    refuses, the handlers of [consumeDownload] run to their end, and the
    chunks written to the output stream are always a prefix of the chunks
    received, in the order of arrival: none is dropped, written twice or
    out of order, and [undefined] is never written.  Whenever the consumer
    is not buffering, every chunk received has been written. *)
Theorem consume_writes_in_order (writable : nat -> bool)
    (evs : list stream_event) :
  exists s,
    consume writable evs start = Some s /\
    chunks s = received evs /\
    (chunkIdx s <= length (received evs))%nat /\
    written (outputs s) = map Some (firstn (chunkIdx s) (received evs)) /\
    (buffering s = false -> written (outputs s) = map Some (received evs)).
Proof.
  destruct (consume_invariant writable evs start invariant_start)
    as (s & E & I & C).
  cbn [start chunks app] in C. exists s. rewrite <- C.
  split; [exact E |]. split; [reflexivity |].
  split; [apply (idx_in_range _ I) |]. split; [apply (written_prefix _ I) |].
  intros B. rewrite (written_prefix _ I), (flushed _ I B), firstn_all.
  reflexivity.
Qed.

(** X2. [outstream.end()] is called at most once, and only after the
    [end] event of the input.  When no [data] event follows [end], the
    calls made on the output stream up to [end()] are exactly the writes
    of all chunks received, in order, and [end()] comes last. *)
Theorem consume_ends_once (writable : nat -> bool)
    (evs : list stream_event) (s : consumer) :
  consume writable evs start = Some s ->
  (ended (outputs s) <= 1)%nat /\
  (ended (outputs s) = 1%nat -> In End_ evs) /\
  (ends_once evs = true -> ended (outputs s) = 1%nat ->
   on_outstream (outputs s) =
     (map (fun c => Write (Some c)) (received evs) ++ [OutEnd])%list).
Proof.
  intros H.
  destruct (consume_invariant writable evs start invariant_start)
    as (s' & E & I & C).
  rewrite E in H. injection H as ->. cbn [start chunks app] in C.
  pose proof (ended_flag _ I) as Ef.
  split; [| split].
  - rewrite Ef. destruct (outstreamTerminated s); lia.
  - intros H1. rewrite H1 in Ef.
    destruct (outstreamTerminated s) eqn:O; [| discriminate].
    pose proof (ended_after_end _ I O) as T.
    apply (consume_instreamTerminated writable evs start s invariant_start E)
      in T.
    destruct T as [T | T]; [discriminate | exact T].
  - intros Hw H1. rewrite H1 in Ef.
    destruct (outstreamTerminated s) eqn:O; [| discriminate].
    assert (F0 : follows_input start) by (split; [reflexivity | discriminate]).
    destruct (consume_follows_input writable evs start s invariant_start F0
                ltac:(discriminate) Hw E) as [F1 F2].
    rewrite O in F1. rewrite F1, (F2 O), firstn_all, C. reflexivity.
Qed.

Lemma consume_ends_once_witness :
  on_outstream
    (outputs
       {| chunks := [[Byte.x50]; [Byte.x4b; Byte.x03]];
          instreamTerminated := true; outstreamTerminated := true;
          buffering := false; chunkIdx := 2; totalSize := 3;
          outputs := [Write (Some [Byte.x50]);
                      Write (Some [Byte.x4b; Byte.x03]); OutEnd] |}) =
    [Write (Some [Byte.x50]); Write (Some [Byte.x4b; Byte.x03]); OutEnd].
Proof.
  exact (proj2 (proj2
    (consume_ends_once (fun i => negb (i =? 0)%nat)
       [Data [Byte.x50]; Data [Byte.x4b; Byte.x03]; End_; Drain] _ eq_refl))
    eq_refl eq_refl).
Defined.

(** X3. [totalSize] is the number of bytes received so far, and on
    [close] the callback is called with no error, that number, and the
    hash taken over the concatenation of all chunks received, in order. *)
Theorem consume_reports_size (writable : nat -> bool)
    (evs : list stream_event) (s : consumer) :
  consume writable evs start = Some s ->
  totalSize s = length (List.concat (received evs)) /\
  exists s',
    consume writable (evs ++ [Close]) start = Some s' /\
    outputs s' =
      (outputs s ++ [Callback (length (List.concat (received evs)))
                              (List.concat (received evs))])%list.
Proof.
  intros H.
  destruct (consume_invariant writable evs start invariant_start)
    as (s' & E & I & C).
  rewrite E in H. injection H as ->. cbn [start chunks app] in C.
  split; [rewrite (size_counted _ I), C; reflexivity |].
  exists (on_close s). rewrite consume_app, E. split; [reflexivity |].
  fields. rewrite (size_counted _ I), C. reflexivity.
Qed.

Lemma consume_reports_size_witness :
  exists s',
    consume (fun _ => true) ([Data [Byte.x50]; Data [Byte.x4b; Byte.x03]; End_]
                             ++ [Close]) start = Some s' /\
    outputs s' =
      ([Write (Some [Byte.x50]); Write (Some [Byte.x4b; Byte.x03]); OutEnd]
       ++ [Callback 3 [Byte.x50; Byte.x4b; Byte.x03]])%list.
Proof.
  exact (proj2 (consume_reports_size (fun _ => true)
                  [Data [Byte.x50]; Data [Byte.x4b; Byte.x03]; End_] _
                  eq_refl)).
Defined.

(** X4. The download cannot stall once the input has ended: a [drain]
    event whose writes are all accepted writes every chunk still held
    back and calls [end()].  If the output stream never refuses a write,
    the consumer never buffers, and the [end] of the input ends the
    output at once. *)
Theorem consume_finishes (writable : nat -> bool)
    (evs : list stream_event) (s : consumer) :
  consume writable evs start = Some s ->
  (instreamTerminated s = true ->
   (forall i, (chunkIdx s <= i)%nat -> writable i = true) ->
   exists s',
     on_drain writable s = Some s' /\
     outstreamTerminated s' = true /\
     written (outputs s') = map Some (received evs)) /\
  ((forall i, writable i = true) ->
   buffering s = false /\ (In End_ evs -> outstreamTerminated s = true)).
Proof.
  intros H.
  destruct (consume_invariant writable evs start invariant_start)
    as (s0 & E & I & C).
  rewrite E in H. injection H as ->. cbn [start chunks app] in C.
  split.
  - intros T Hall.
    destruct (on_drain_spec writable s I)
      as (s1 & s' & _ & Ed & I' & I1 & -> & Hc & Hi & _ & _ & _ & _ & Hb).
    specialize (Hb Hall). rewrite Hb, Hi, T in *. cbn [negb andb] in *.
    eexists. split; [exact Ed |]. split; [reflexivity |].
    rewrite (written_prefix _ I'). fields.
    rewrite (flushed _ I1 Hb), firstn_all, Hc, C. reflexivity.
  - intros Hall.
    assert (G : forall evs s s',
               invariant s -> consume writable evs s = Some s' ->
               buffering s = false ->
               (instreamTerminated s = true -> outstreamTerminated s = true) ->
               buffering s' = false /\
               (instreamTerminated s' = true -> outstreamTerminated s' = true)).
    { clear - Hall. induction evs as [|e evs IH]; intros s s' I H B T.
      - injection H as <-. auto.
      - cbn [consume] in H.
        destruct (handle_invariant writable e s I) as (s1 & E1 & I1 & _).
        rewrite E1 in H. apply (IH s1 s' I1 H).
        + destruct e as [c | | |]; cbn [handle] in E1.
          * injection E1 as <-. unfold on_data. fields. rewrite B. fields.
            rewrite Hall. reflexivity.
          * injection E1 as <-. unfold on_end. fields. rewrite B. fields.
            reflexivity.
          * destruct (on_drain_spec writable s I)
              as (s2 & s3 & _ & Ed & _ & _ & -> & _ & _ & _ & _ & _ & _ & Hb).
            rewrite Ed in E1. injection E1 as <-.
            rewrite (Hb (fun i _ => Hall i)). cbn [negb andb].
            destruct (instreamTerminated s2); fields;
              apply Hb; intros; apply Hall.
          * injection E1 as <-. exact B.
        + destruct e as [c | | |]; cbn [handle] in E1.
          * injection E1 as <-. unfold on_data. fields. rewrite B. fields.
            exact T.
          * injection E1 as <-. unfold on_end. fields. rewrite B. fields.
            reflexivity.
          * destruct (on_drain_spec writable s I)
              as (s2 & s3 & _ & Ed & _ & _ & -> & _ & Hi & Ho & _ & _ & _ & Hb).
            rewrite Ed in E1. injection E1 as <-.
            rewrite (Hb (fun i _ => Hall i)). cbn [negb andb].
            destruct (instreamTerminated s2) eqn:T2; fields;
              intros; first [reflexivity | congruence].
          * injection E1 as <-. exact T. }
    destruct (G evs start s invariant_start E eq_refl ltac:(discriminate))
      as [B T].
    split; [exact B |]. intros Hin. apply T.
    apply (consume_instreamTerminated writable evs start s invariant_start E).
    right. exact Hin.
Qed.

Lemma consume_finishes_witness :
  exists s',
    on_drain (fun i => negb (i =? 0)%nat)
      {| chunks := [[Byte.x50]; [Byte.x4b; Byte.x03]];
         instreamTerminated := true; outstreamTerminated := false;
         buffering := true; chunkIdx := 1; totalSize := 3;
         outputs := [Write (Some [Byte.x50])] |} = Some s' /\
    outstreamTerminated s' = true /\
    written (outputs s') =
      map Some (received [Data [Byte.x50]; Data [Byte.x4b; Byte.x03]; End_]).
Proof.
  exact (proj1 (consume_finishes (fun i => negb (i =? 0)%nat)
                  [Data [Byte.x50]; Data [Byte.x4b; Byte.x03]; End_] _
                  eq_refl)
           eq_refl
           (fun i H => match i return (1 <= i)%nat -> negb (i =? 0)%nat = true
                       with
                       | O => fun H0 => match Nat.nle_succ_0 _ H0 with end
                       | S _ => fun _ => eq_refl
                       end H)).
Defined.

(** ** The directory listing *)

Lemma take_drop (n : nat) (s : string) : take n s ++ drop n s = s.
Proof.
  revert n. induction s as [|c s IH]; intros [|n]; cbn; try reflexivity.
  rewrite IH. reflexivity.
Qed.

Lemma take_append (a b : string) : take (String.length a) (a ++ b) = a.
Proof.
  induction a as [|c a IH]; cbn; [destruct b; reflexivity |].
  rewrite IH. reflexivity.
Qed.

Lemma drop_append (a b : string) : drop (String.length a) (a ++ b) = b.
Proof.
  induction a as [|c a IH]; cbn; [destruct b; reflexivity | exact IH].
Qed.

Lemma prefix_drop (t s : string) :
  prefix t s = true -> s = t ++ drop (String.length t) s.
Proof.
  revert s. induction t as [|c t IH]; intros s H.
  - destruct s; reflexivity.
  - destruct s as [|d s]; cbn [prefix] in H; [discriminate |].
    destruct (ascii_dec c d) as [<- |]; [| discriminate].
    cbn. rewrite <- (IH s H). reflexivity.
Qed.

Lemma take_span (cls : ascii -> bool) (s : string) (n : nat) :
  (1 <= n <= span cls s)%nat -> take n s <> "" /\ all cls (take n s) = true.
Proof.
  unfold all. revert n. induction s as [|c s IH]; intros n [H1 H2];
    cbn [span] in H2; [lia |].
  destruct (cls c) eqn:C; [| lia].
  destruct n as [|n]; [lia |]. cbn. rewrite C. split; [discriminate |].
  destruct n as [|n]; [destruct s; reflexivity |].
  apply IH. lia.
Qed.

Lemma span_all (cls : ascii -> bool) (a b : string) :
  all cls a = true -> span cls (a ++ b) = (String.length a + span cls b)%nat.
Proof.
  unfold all. induction a as [|c a IH]; cbn; [reflexivity |].
  intros H. apply andb_true_iff in H. destruct H as [-> H].
  rewrite (IH H). reflexivity.
Qed.

Lemma backtrack_matched (cls : ascii -> bool) (rest : list item)
    (s : string) (n : nat) (captures : list string) :
  (forall s' captures', exec rest s' = Some captures' ->
                        matched rest captures' s') ->
  (n <= span cls s)%nat ->
  backtrack (exec rest) s n = Some captures ->
  matched (Group cls :: rest) captures s.
Proof.
  intros Hrest. revert captures.
  induction n as [|n IH]; intros captures Hn H; cbn [backtrack] in H;
    [discriminate |].
  destruct (exec rest (drop (S n) s)) as [captures' |] eqn:E.
  - assert (C : captures = take (S n) s :: captures') by congruence.
    rewrite C. clear H C. cbn [matched]. exists (drop (S n) s).
    destruct (take_span cls s (S n)) as [H1 H2]; [lia |].
    split; [symmetry; apply take_drop |]. split; [exact H1 |].
    split; [exact H2 |]. apply Hrest. exact E.
  - apply IH; [lia | exact H].
Qed.

(** A match of the pattern is a match in the sense of [matched]. *)
Lemma exec_matched (pattern : list item) :
  forall s captures, exec pattern s = Some captures ->
                     matched pattern captures s.
Proof.
  induction pattern as [|[text | cls] rest IH]; intros s captures H;
    cbn [exec] in H.
  - destruct (String.eqb_spec s ""); [| discriminate].
    injection H as <-. exact e.
  - destruct (prefix text s) eqn:P; [| discriminate].
    cbn [matched]. exists (drop (String.length text) s).
    split; [apply prefix_drop; exact P | apply IH; exact H].
  - apply (backtrack_matched cls rest s (span cls s)); auto.
Qed.

Lemma decodeDirectoryEntry_matched (e : entry) (f : archive) :
  decodeDirectoryEntry e = Archive f ->
  e = Parsed (file f) /\
  file f = "libxl-" ++ system f ++ "-" ++ version f ++ "." ++ suffix f /\
  (system f <> "" /\ all word (system f) = true) /\
  (version f <> "" /\ all digit_dot (version f) = true) /\
  (suffix f <> "" /\ all alpha_dot (suffix f) = true).
Proof.
  unfold decodeDirectoryEntry. intros H.
  destruct e as [name | line]; cbn [entry_name] in H; [| discriminate].
  destruct (exec entry_pattern name) as [[|m1 [|m2 [|m3 [|]]]] |] eqn:E;
    try discriminate.
  injection H as <-. cbn [file system version suffix].
  apply exec_matched in E. cbn [entry_pattern matched] in E.
  destruct E as (s1 & -> & s2 & -> & N1 & A1 & s3 & -> & s4 & -> & N2 & A2
                 & s5 & -> & s6 & -> & N3 & A3 & ->).
  assert (E : "libxl-" ++ m1 ++ "-" ++ m2 ++ "." ++ m3 ++ "" =
              "libxl-" ++ m1 ++ "-" ++ m2 ++ "." ++ m3).
  { repeat f_equal. clear.
    induction m3 as [|c m3 IHm]; cbn; [reflexivity | rewrite IHm; reflexivity]. }
  rewrite E. repeat split; assumption.
Qed.

(** X5. A directory entry that [decodeDirectoryEntry] decodes is an entry
    with a name, and is read back from its parts: its name is [libxl-],
    the system, a hyphen, the version, a dot and the suffix; the system
    is a non-empty run of word characters, the version one of digits and
    dots, the suffix one of dots and characters from [A] to [z]; [file]
    is the name itself. *)
Theorem decodeDirectoryEntry_parts (e : entry) (f : archive) :
  decodeDirectoryEntry e = Archive f ->
  exists name,
    e = Parsed name /\
    file f = name /\
    name = "libxl-" ++ system f ++ "-" ++ version f ++ "." ++ suffix f /\
    (system f <> "" /\ all word (system f) = true) /\
    (version f <> "" /\ all digit_dot (version f) = true) /\
    (suffix f <> "" /\ all alpha_dot (suffix f) = true).
Proof.
  intros H. destruct (decodeDirectoryEntry_matched e f H) as (E & N & C).
  exists (file f). repeat split; try exact E; try exact N; apply C.
Qed.

Lemma decodeDirectoryEntry_parts_witness :
  exists name,
    Parsed "libxl-lin-3.6.5.0.tar.gz" = Parsed name /\
    "libxl-lin-3.6.5.0.tar.gz" = name /\
    name = "libxl-" ++ "lin" ++ "-" ++ "3.6.5.0" ++ "." ++ "tar.gz" /\
    ("lin" <> "" /\ all word "lin" = true) /\
    ("3.6.5.0" <> "" /\ all digit_dot "3.6.5.0" = true) /\
    ("tar.gz" <> "" /\ all alpha_dot "tar.gz" = true).
Proof.
  exact (decodeDirectoryEntry_parts (Parsed "libxl-lin-3.6.5.0.tar.gz")
           {| file := "libxl-lin-3.6.5.0.tar.gz"; system := "lin";
              version := "3.6.5.0"; suffix := "tar.gz" |} eq_refl).
Defined.

Lemma backtrack_first (cont : string -> option (list string)) (s : string)
    (n : nat) (captures : list string) :
  (1 <= n)%nat -> cont (drop n s) = Some captures ->
  backtrack cont s n = Some (take n s :: captures).
Proof.
  intros Hn H. destruct n as [|n]; [lia |]. cbn [backtrack]. rewrite H.
  reflexivity.
Qed.

Lemma prefix_nil (s : string) : prefix "" s = true.
Proof.
  destruct s; reflexivity.
Qed.

Lemma span_whole (cls : ascii -> bool) (s : string) :
  all cls s = true -> span cls s = String.length s.
Proof.
  unfold all. induction s as [|c s IH]; cbn; [reflexivity |].
  intros H. apply andb_true_iff in H. destruct H as [-> H].
  rewrite (IH H). reflexivity.
Qed.

Lemma take_whole (s : string) : take (String.length s) s = s.
Proof.
  induction s as [|c s IH]; cbn; [| rewrite IH]; reflexivity.
Qed.

Lemma drop_whole (s : string) : drop (String.length s) s = "".
Proof.
  induction s as [|c s IH]; cbn; [reflexivity | exact IH].
Qed.

Lemma length_nonempty (s : string) : s <> "" -> (1 <= String.length s)%nat.
Proof.
  destruct s; [congruence | cbn; lia].
Qed.

(** The pattern matches a name put together from a system, a version and
    a suffix of the right classes, and captures these three, when the
    suffix starts with neither a digit nor a dot. *)
Lemma exec_entry (sys v suf : string) :
  sys <> "" -> all word sys = true ->
  v <> "" -> all digit_dot v = true ->
  suf <> "" -> all alpha_dot suf = true -> span digit_dot suf = 0%nat ->
  exec entry_pattern ("libxl-" ++ sys ++ "-" ++ v ++ "." ++ suf) =
    Some [sys; v; suf].
Proof.
  intros Ns As Nv Av Nx Ax Sx.
  pose proof (length_nonempty _ Ns) as Ls.
  pose proof (length_nonempty _ Nv) as Lv.
  pose proof (length_nonempty _ Nx) as Lx.
  (* the suffix alone *)
  assert (E3 : exec [Group alpha_dot] suf = Some [suf]).
  { cbn [exec]. rewrite (span_whole _ _ Ax).
    rewrite (backtrack_first _ _ _ [] Lx); [rewrite take_whole; reflexivity |].
    rewrite drop_whole. reflexivity. }
  (* the version and what follows it *)
  assert (E2 : exec [Group digit_dot; Lit "."; Group alpha_dot]
                 (v ++ "." ++ suf) = Some [v; suf]).
  { cbn [exec].
    assert (Sp : span digit_dot (v ++ "." ++ suf) = S (String.length v)).
    { rewrite span_all by exact Av. cbn [append span]. 
      change (digit_dot ".") with true. cbn iota. rewrite Sx. lia. }
    rewrite Sp. cbn [backtrack].
    assert (D1 : drop (S (String.length v)) (v ++ "." ++ suf) = suf).
    { replace (S (String.length v)) with (String.length (v ++ "."))
        by (rewrite length_append; cbn; lia).
      rewrite <- append_assoc. apply drop_append. }
    rewrite D1.
    assert (P : prefix "." suf = false).
    { destruct suf as [|c x]; [congruence |]. cbn [span] in Sx.
      cbn [prefix]. destruct (ascii_dec "." c) as [<- |]; [| reflexivity].
      discriminate Sx. }
    rewrite P.
    rewrite (backtrack_first _ _ _ [suf] Lv);
      [rewrite take_append; reflexivity |].
    rewrite drop_append.
    change (prefix "." ("." ++ suf)) with (prefix "" suf).
    change (drop (String.length ".") ("." ++ suf)) with suf.
    rewrite prefix_nil. exact E3. }
  cbn [entry_pattern exec].
  rewrite prefix_append, drop_append.
  assert (Sp : span word (sys ++ "-" ++ v ++ "." ++ suf) = String.length sys).
  { rewrite span_all by exact As. cbn [append span].
    change (word "-") with false. cbn iota. lia. }
  rewrite Sp.
  rewrite (backtrack_first _ _ _ [v; suf] Ls);
    [rewrite take_append; reflexivity |].
  rewrite drop_append.
  change (prefix "-" ("-" ++ v ++ "." ++ suf)) with (prefix "" (v ++ "." ++ suf)).
  change (drop (String.length "-") ("-" ++ v ++ "." ++ suf))
    with (v ++ "." ++ suf).
  rewrite prefix_nil. exact E2.
Qed.

(** X6. The entries [processDirectoryList] keeps as candidates are
    exactly those named [libxl-], the platform's system ([win], [mac] or
    [lin]), a hyphen, a non-empty version of digits and dots, a dot and
    the platform's extension ([zip] on Windows, [tar.gz] elsewhere). *)
Theorem candidate_names (w : World) (e : entry) :
  (exists f, decodeDirectoryEntry e = Archive f /\ validArchive w f = true)
  <->
  (exists v, v <> "" /\ all digit_dot v = true /\
             e = Parsed ("libxl-" ++ archive_suffix w ++ "-" ++ v ++ "."
                         ++ archive_extension w)).
Proof.
  split.
  - intros (f & D & V).
    destruct (decodeDirectoryEntry_matched e f D)
      as (-> & -> & _ & (Nv & Av) & _).
    exists (version f). split; [exact Nv |]. split; [exact Av |].
    unfold validArchive in V. unfold archive_suffix, archive_extension.
    destruct (isWin w); [| destruct (isMac w)];
      apply andb_true_iff in V; destruct V as [V1 V2];
      apply String.eqb_eq in V1, V2; rewrite V1, V2; reflexivity.
  - intros (v & Nv & Av & ->).
    assert (E : exec entry_pattern
                  ("libxl-" ++ archive_suffix w ++ "-" ++ v ++ "."
                   ++ archive_extension w) =
                Some [archive_suffix w; v; archive_extension w]).
    { unfold archive_suffix, archive_extension.
      destruct (isWin w); [| destruct (isMac w)];
        apply exec_entry; auto; discriminate. }
    eexists. unfold decodeDirectoryEntry. cbn [entry_name]. rewrite E.
    split; [reflexivity |].
    unfold validArchive, archive_suffix, archive_extension.
    cbn [system suffix].
    destruct (isWin w); [| destruct (isMac w)]; reflexivity.
Qed.

Lemma candidate_names_witness :
  exists f, decodeDirectoryEntry (Parsed "libxl-lin-3.6.5.0.tar.gz")
              = Archive f /\
            validArchive (checkout false acme) f = true.
Proof.
  apply (proj2 (candidate_names (checkout false acme)
                  (Parsed "libxl-lin-3.6.5.0.tar.gz"))).
  exists "3.6.5.0". split; [discriminate | split; reflexivity].
Defined.

(** [.map(decodeDirectoryEntry)] throws on an entry without a name, and
    on nothing else. *)
Lemma map_decode_none (entries : list entry) :
  map_decode entries = None <->
  exists e, In e entries /\ decodeDirectoryEntry e = NoName.
Proof.
  induction entries as [|e rest IH]; cbn [map_decode In].
  - split; [discriminate | intros (e & [] & _)].
  - destruct (decodeDirectoryEntry e) eqn:D.
    + destruct (map_decode rest) as [files|]; cbn [option_map].
      * split; [discriminate |]. intros (e' & [<- | Hin] & D'); [congruence |].
        exfalso. assert (X : Some files = None) by (apply IH; eauto).
        discriminate.
      * split; [| reflexivity]. intros _.
        destruct (proj1 IH eq_refl) as (e' & Hin & D'). eauto.
    + destruct (map_decode rest) as [files|]; cbn [option_map].
      * split; [discriminate |]. intros (e' & [<- | Hin] & D'); [congruence |].
        exfalso. assert (X : Some files = None) by (apply IH; eauto).
        discriminate.
      * split; [| reflexivity]. intros _.
        destruct (proj1 IH eq_refl) as (e' & Hin & D'). eauto.
    + split; [| reflexivity]. intros _. exists e. auto.
Qed.

(** Otherwise it collects what the calls return, entry by entry. *)
Lemma map_decode_some (entries : list entry) :
  forall files, map_decode entries = Some files ->
  forall o, In o files <->
            exists e, In e entries /\ decodeDirectoryEntry e = returned_by o.
Proof.
  induction entries as [|e rest IH]; intros files H o; cbn [map_decode] in H.
  - injection H as <-. cbn [In]. split; [contradiction | intros (e & [] & _)].
  - destruct (decodeDirectoryEntry e) eqn:D; [| | discriminate];
      (destruct (map_decode rest) as [files'|]; [| discriminate]);
      cbn [option_map] in H; injection H as <-;
      specialize (IH files' eq_refl o); cbn [In]; rewrite IH; split.
    + intros [<- | (e' & Hin & D')]; [exists e; auto | exists e'; auto].
    + intros (e' & [<- | Hin] & D').
      * left. rewrite D in D'. destruct o; cbn in D'; congruence.
      * right. eauto.
    + intros [<- | (e' & Hin & D')]; [exists e; auto | exists e'; auto].
    + intros (e' & [<- | Hin] & D').
      * left. rewrite D in D'. destruct o; cbn in D'; congruence.
      * right. eauto.
Qed.

Lemma filter_valid_none (w : World) (files : list (option archive)) :
  filter_valid w files = None <-> In None files.
Proof.
  induction files as [|[f|] rest IH]; cbn [filter_valid In].
  - split; [discriminate | contradiction].
  - destruct (filter_valid w rest).
    + split; [discriminate |]. intros [H | H]; [discriminate |].
      apply IH in H. discriminate.
    + split; [intros _; right; apply IH; reflexivity | reflexivity].
  - split; [auto | reflexivity].
Qed.

Lemma filter_valid_some (w : World) (files : list (option archive))
    (valid : list archive) :
  filter_valid w files = Some valid ->
  forall f, In f valid <-> In (Some f) files /\ validArchive w f = true.
Proof.
  revert valid. induction files as [|[g|] rest IH]; intros valid H f;
    cbn [filter_valid] in H.
  - injection H as <-. cbn. tauto.
  - destruct (filter_valid w rest) as [fs|]; [| discriminate].
    injection H as <-. specialize (IH fs eq_refl f). cbn [In].
    destruct (validArchive w g) eqn:V; cbn [In]; rewrite IH.
    + split.
      * intros [-> | [H1 H2]]; auto.
      * intros [[H1 | H1] H2]; [injection H1 as ->; auto | auto].
    + split.
      * intros [H1 H2]; auto.
      * intros [[H1 | H1] H2]; [injection H1 as ->; congruence | auto].
  - discriminate.
Qed.

(** The two ways an entry is not decoded: it has no name, or its name
    does not match the pattern. *)
Lemma decodeDirectoryEntry_cases :
  (forall e, decodeDirectoryEntry e = NoName <->
             exists line, e = Unparsed line) /\
  (forall e, decodeDirectoryEntry e = NoMatch <->
             exists name, e = Parsed name /\ exec entry_pattern name = None).
Proof.
  assert (Hthree : forall name captures,
             exec entry_pattern name = Some captures ->
             exists m1 m2 m3, captures = [m1; m2; m3]).
  { intros name captures E. apply exec_matched in E.
    cbn [entry_pattern matched] in E.
    destruct captures as [|m1 [|m2 [|m3 [|m4 rest]]]];
      try (exfalso; decompose record E; contradiction).
    eauto. }
  split; intros [name | line]; unfold decodeDirectoryEntry; cbn [entry_name].
  - split; [| intros (l & E); discriminate].
    destruct (exec entry_pattern name) as [[|m1 [|m2 [|m3 [|]]]] |];
      discriminate.
  - split; eauto.
  - destruct (exec entry_pattern name) as [captures |] eqn:E.
    + destruct (Hthree _ _ E) as (m1 & m2 & m3 & ->).
      split; [discriminate |]. intros (n & N & X).
      injection N as <-. congruence.
    + split; eauto.
  - split; [discriminate | intros (n & N & _); discriminate].
Qed.

(** X7. One entry of the listing that is not decoded is enough for
    [processDirectoryList] to download nothing, even when the listing
    holds archives for the platform.  For an entry without a name, the
    line of an entry the FTP client could not parse,
    [decodeDirectoryEntry] throws the TypeError on reading [name.match];
    for an entry whose name does not match the pattern it returns
    [undefined], and the filter throws the TypeError on reading [system]
    off it.  Either way the error is caught and its message logged.
    These are the only ways the TypeError arises. *)
Theorem unmatched_entry_stops_download (w : World)
    (sort : list archive -> list archive) (entries : list entry) :
  processDirectoryList w sort (Some entries) = LogTypeError <->
  (exists line, In (Unparsed line) entries) \/
  (exists name, In (Parsed name) entries /\
                exec entry_pattern name = None).
Proof.
  pose proof decodeDirectoryEntry_cases as (Hno & Hun).
  unfold processDirectoryList.
  destruct (map_decode entries) as [files|] eqn:M.
  - pose proof (map_decode_some entries files M) as Hf.
    assert (Hraw : ~ exists line, In (Unparsed line) entries).
    { intros (line & Hin).
      assert (N : map_decode entries = None).
      { apply map_decode_none. exists (Unparsed line). split; [exact Hin |].
        apply Hno. eauto. }
      congruence. }
    destruct (filter_valid w files) as [valid|] eqn:E.
    + split.
      * destruct (sort valid); discriminate.
      * intros [Hl | (name & Hin & X)]; [contradiction |]. exfalso.
        assert (N : In None files).
        { apply Hf. exists (Parsed name). split; [exact Hin |].
          apply Hun. eauto. }
        apply (filter_valid_none w) in N. congruence.
    + split; [| reflexivity]. intros _. right.
      apply filter_valid_none in E. apply Hf in E.
      destruct E as (e & Hin & D). apply Hun in D.
      destruct D as (name & -> & X). eauto.
  - split; [| reflexivity]. intros _. left.
    apply map_decode_none in M. destruct M as (e & Hin & D).
    apply Hno in D. destruct D as (line & ->). eauto.
Qed.

Lemma unmatched_entry_stops_download_witness :
  processDirectoryList (checkout false acme) insertion_sort
    (Some [Parsed "libxl-lin-3.6.5.0.tar.gz"; Parsed "README"])
    = LogTypeError /\
  processDirectoryList (checkout false acme) insertion_sort
    (Some [Parsed "libxl-lin-3.6.5.0.tar.gz"; Unparsed "total 2"])
    = LogTypeError.
Proof.
  split.
  - apply (proj2 (unmatched_entry_stops_download (checkout false acme)
                    insertion_sort
                    [Parsed "libxl-lin-3.6.5.0.tar.gz"; Parsed "README"])).
    right. exists "README". split; [right; left; reflexivity | reflexivity].
  - apply (proj2 (unmatched_entry_stops_download (checkout false acme)
                    insertion_sort
                    [Parsed "libxl-lin-3.6.5.0.tar.gz"; Unparsed "total 2"])).
    left. exists "total 2". right; left; reflexivity.
Defined.

(** X8. When every entry of the listing is decoded and the sort returns
    its input in some order, [processDirectoryList] either downloads one
    of the listed names that is an archive for the platform, or, when the
    listing holds none, logs that it failed to identify a suitable
    download. *)
Theorem download_is_a_candidate (w : World)
    (sort : list archive -> list archive) (entries : list entry) :
  (forall l, Permutation (sort l) l) ->
  (forall e, In e entries -> exists f, decodeDirectoryEntry e = Archive f) ->
  match processDirectoryList w sort (Some entries) with
  | DownloadFile name =>
      In (Parsed name) entries /\
      exists f, decodeDirectoryEntry (Parsed name) = Archive f /\
                validArchive w f = true
  | LogMessage message =>
      message = "Failed to identify a suitable download" /\
      forall e f, In e entries -> decodeDirectoryEntry e = Archive f ->
                  validArchive w f = false
  | LogTypeError => False
  end.
Proof.
  intros Hsort Hall. unfold processDirectoryList.
  destruct (map_decode entries) as [files|] eqn:M.
  - pose proof (map_decode_some entries files M) as Hf.
    destruct (filter_valid w files) as [valid|] eqn:E.
    + pose proof (filter_valid_some w _ _ E) as Hv.
      pose proof (Hsort valid) as P.
      destruct (sort valid) as [|first rest] eqn:S.
      * apply Permutation_nil in P. subst valid. split; [reflexivity |].
        intros e f Hin D. destruct (validArchive w f) eqn:V; [| reflexivity].
        exfalso. apply (proj2 (Hv f)). split; [| exact V].
        apply Hf. exists e. auto.
      * assert (Hin : In first valid)
          by (apply (Permutation_in _ P); left; reflexivity).
        apply Hv in Hin. destruct Hin as [Hin V].
        apply Hf in Hin. destruct Hin as (e & Hin & D). cbn [returned_by] in D.
        destruct (decodeDirectoryEntry_matched e first D) as (-> & _).
        split; [exact Hin |]. exists first. auto.
    + apply filter_valid_none in E. apply Hf in E.
      destruct E as (e & Hin & D). destruct (Hall e Hin) as (f & D').
      cbn [returned_by] in D. congruence.
  - apply map_decode_none in M. destruct M as (e & Hin & D).
    destruct (Hall e Hin) as (f & D'). congruence.
Qed.

Lemma insert_by_permutation (f : archive) (l : list archive) :
  Permutation (insert_by f l) (f :: l).
Proof.
  induction l as [|g l IH]; cbn [insert_by]; [reflexivity |].
  destruct (compareFiles f g <? 0)%Z; [reflexivity |].
  rewrite IH. apply perm_swap.
Qed.

Lemma insertion_sort_permutation (l : list archive) :
  Permutation (insertion_sort l) l.
Proof.
  induction l as [|f l IH]; cbn; [reflexivity |].
  rewrite insert_by_permutation. constructor. exact IH.
Qed.

Lemma download_is_a_candidate_witness :
  match processDirectoryList (checkout false acme) insertion_sort
          (Some [Parsed "libxl-mac-3.6.5.0.tar.gz";
                 Parsed "libxl-lin-3.6.5.0.tar.gz"]) with
  | DownloadFile name =>
      In (Parsed name) [Parsed "libxl-mac-3.6.5.0.tar.gz";
                        Parsed "libxl-lin-3.6.5.0.tar.gz"] /\
      exists f, decodeDirectoryEntry (Parsed name) = Archive f /\
                validArchive (checkout false acme) f = true
  | LogMessage message =>
      message = "Failed to identify a suitable download" /\
      forall e f,
        In e [Parsed "libxl-mac-3.6.5.0.tar.gz";
              Parsed "libxl-lin-3.6.5.0.tar.gz"] ->
        decodeDirectoryEntry e = Archive f ->
        validArchive (checkout false acme) f = false
  | LogTypeError => False
  end.
Proof.
  apply (download_is_a_candidate (checkout false acme) insertion_sort
           [Parsed "libxl-mac-3.6.5.0.tar.gz";
            Parsed "libxl-lin-3.6.5.0.tar.gz"]
           insertion_sort_permutation).
  intros e [<- | [<- | []]]; eexists; reflexivity.
Defined.

(** ** [compareFiles] as an order *)

Lemma ascii_compare_trans (a b c : ascii) :
  Ascii.compare a b = Lt -> Ascii.compare b c = Lt -> Ascii.compare a c = Lt.
Proof.
  unfold Ascii.compare. rewrite !N.compare_lt_iff. apply N.lt_trans.
Qed.

Lemma string_compare_trans (a : string) :
  forall b c, String.compare a b = Lt -> String.compare b c = Lt ->
              String.compare a c = Lt.
Proof.
  induction a as [|x a IH]; intros [|y b] [|z c]; cbn [String.compare];
    try discriminate; try reflexivity.
  destruct (Ascii.compare x y) eqn:Exy; try discriminate;
    destruct (Ascii.compare y z) eqn:Eyz; try discriminate; intros H1 H2.
  - apply Ascii.compare_eq_iff in Exy, Eyz. subst.
    assert (E : Ascii.compare z z = Eq).
    { pose proof (Ascii.compare_antisym z z) as A.
      destruct (Ascii.compare z z); cbn in A; congruence. }
    rewrite E. exact (IH _ _ H1 H2).
  - apply Ascii.compare_eq_iff in Exy. subst. rewrite Eyz. reflexivity.
  - apply Ascii.compare_eq_iff in Eyz. subst. rewrite Exy. reflexivity.
  - rewrite (ascii_compare_trans _ _ _ Exy Eyz). reflexivity.
Qed.

(** [cmp] told by the comparison of the two strings. *)
Lemma cmp_compare (a b : string) :
  cmp a b = match String.compare a b with
            | Lt => 1%Z
            | Eq => 0%Z
            | Gt => (-1)%Z
            end.
Proof.
  unfold cmp, str_gt, str_lt, String.ltb.
  rewrite (String.compare_antisym b a).
  destruct (String.compare a b); reflexivity.
Qed.

Lemma cmp_zero (a b : string) : cmp a b = 0%Z <-> a = b.
Proof.
  rewrite cmp_compare. split.
  - destruct (String.compare a b) eqn:E; try discriminate.
    intros _. apply String.compare_eq_iff. exact E.
  - intros ->. rewrite <- cmp_compare. apply cmp_refl.
Qed.

Lemma cmp_opp (a b : string) : cmp b a = (- cmp a b)%Z.
Proof.
  rewrite !cmp_compare, (String.compare_antisym a b).
  destruct (String.compare b a); reflexivity.
Qed.

Lemma cmp_trans (a b c : string) :
  cmp a b = (-1)%Z -> cmp b c = (-1)%Z -> cmp a c = (-1)%Z.
Proof.
  rewrite !cmp_compare.
  rewrite (String.compare_antisym a b), (String.compare_antisym b c),
    (String.compare_antisym a c).
  destruct (String.compare b a) eqn:E1; try discriminate.
  destruct (String.compare c b) eqn:E2; try discriminate.
  intros _ _. rewrite (string_compare_trans _ _ _ E2 E1). reflexivity.
Qed.

Lemma compare_loop_shift (a b : string) (v1 v2 : list string) (todo : nat) :
  forall i, compare_loop (a :: v1) (b :: v2) (S i) todo =
            compare_loop v1 v2 i todo.
Proof.
  induction todo as [|todo IH]; intros i; cbn [compare_loop nth];
    [reflexivity |].
  rewrite IH. reflexivity.
Qed.

Lemma compareFiles_versions (file1 file2 : archive) :
  compareFiles file1 file2 =
    versions_cmp (decodeVersion file1) (decodeVersion file2).
Proof.
  unfold compareFiles.
  generalize (decodeVersion file1) as v1, (decodeVersion file2) as v2.
  induction v1 as [|a r1 IH]; intros [|b r2]; cbn; try reflexivity.
  destruct (cmp a b =? 0)%Z; [| reflexivity].
  rewrite compare_loop_shift. apply IH.
Qed.

Lemma versions_cmp_opp (v1 : list string) :
  forall v2, v1 <> v2 -> versions_cmp v2 v1 = (- versions_cmp v1 v2)%Z.
Proof.
  induction v1 as [|a r1 IH]; intros [|b r2] H; cbn [versions_cmp];
    try reflexivity; [congruence |].
  rewrite (cmp_opp a b).
  destruct (cmp a b =? 0)%Z eqn:E.
  - apply Z.eqb_eq in E. rewrite E. cbn.
    apply cmp_zero in E. subst b. apply IH. congruence.
  - apply Z.eqb_neq in E.
    destruct (- cmp a b =? 0)%Z eqn:E'; [| reflexivity].
    apply Z.eqb_eq in E'. lia.
Qed.

Lemma versions_cmp_trans (v1 : list string) :
  forall v2 v3, versions_cmp v1 v2 = (-1)%Z -> versions_cmp v2 v3 = (-1)%Z ->
                versions_cmp v1 v3 = (-1)%Z.
Proof.
  induction v1 as [|a r1 IH]; intros [|b r2] [|c r3]; cbn [versions_cmp];
    try discriminate; try reflexivity.
  destruct (cmp a b =? 0)%Z eqn:Eab; destruct (cmp b c =? 0)%Z eqn:Ebc;
    intros H1 H2.
  - apply Z.eqb_eq in Eab, Ebc. apply cmp_zero in Eab, Ebc. subst.
    rewrite cmp_refl. cbn. exact (IH _ _ H1 H2).
  - apply Z.eqb_eq in Eab. apply cmp_zero in Eab. subst.
    rewrite Ebc. exact H2.
  - apply Z.eqb_eq in Ebc. apply cmp_zero in Ebc. subst.
    rewrite Eab. exact H1.
  - pose proof (cmp_trans _ _ _ H1 H2) as T. rewrite T. reflexivity.
Qed.

Lemma concat_split (s : string) : String.concat "." (split "." s) = s.
Proof.
  induction s as [|c s IH]; [reflexivity |].
  cbn [split]. destruct (Ascii.eqb_spec c ".") as [-> | N].
  - cbn [String.concat]. destruct (split "." s) eqn:E.
    + destruct s; cbn in E; [discriminate |].
      destruct (Ascii.eqb a "."); [discriminate |].
      destruct (split "." s); discriminate.
    + rewrite IH. reflexivity.
  - destruct (split "." s) as [|h t] eqn:E.
    + destruct s; cbn in E; [discriminate |].
      destruct (Ascii.eqb a "."); [discriminate |].
      destruct (split "." s); discriminate.
    + cbn [String.concat] in *. destruct t; cbn; rewrite <- IH; reflexivity.
Qed.

Lemma decodeVersion_injective (file1 file2 : archive) :
  decodeVersion file1 = decodeVersion file2 -> version file1 = version file2.
Proof.
  unfold decodeVersion. intros H.
  rewrite <- (concat_split (version file1)), <- (concat_split (version file2)), H.
  reflexivity.
Qed.

(** X9. On two files with different versions [compareFiles] is
    antisymmetric: swapping the arguments flips the sign of the result,
    which is always -1 or 1.  (On equal versions it is 1 in both
    orders.) *)
Theorem compareFiles_antisymmetric (file1 file2 : archive) :
  (compareFiles file1 file2 = (-1)%Z \/ compareFiles file1 file2 = 1%Z) /\
  (version file1 <> version file2 ->
   compareFiles file2 file1 = (- compareFiles file1 file2)%Z) /\
  (version file1 = version file2 ->
   compareFiles file1 file2 = 1%Z /\ compareFiles file2 file1 = 1%Z).
Proof.
  split; [| split].
  - unfold compareFiles. destruct (compare_loop _ _ 0 _) as [r|] eqn:E.
    + revert E. generalize 0%nat as i.
      generalize (Nat.min (length (decodeVersion file1))
                          (length (decodeVersion file2))) as todo.
      induction todo as [|todo IH]; intros i; cbn [compare_loop];
        [discriminate |].
      destruct (cmp _ _ =? 0)%Z eqn:Z0; [apply IH |].
      intros H. injection H as <-. apply Z.eqb_neq in Z0.
      rewrite cmp_compare in *. destruct (String.compare _ _); auto.
      congruence.
    + destruct (_ <? _)%nat; auto.
  - intros H. rewrite !compareFiles_versions. apply versions_cmp_opp.
    intros E. apply H. apply decodeVersion_injective. exact E.
  - intros H. rewrite !compareFiles_versions. unfold decodeVersion.
    rewrite H. generalize (split "." (version file2)) as v.
    induction v as [|a v IH]; cbn [versions_cmp]; [auto |].
    rewrite cmp_refl. cbn. exact IH.
Qed.

Lemma compareFiles_antisymmetric_witness :
  compareFiles (lin_archive "3.10.0") (lin_archive "3.9.0") =
    (- compareFiles (lin_archive "3.9.0") (lin_archive "3.10.0"))%Z.
Proof.
  exact (proj1 (proj2 (compareFiles_antisymmetric
                         (lin_archive "3.9.0") (lin_archive "3.10.0")))
           ltac:(discriminate)).
Defined.

(** X10. [compareFiles] is transitive: if it puts a first file before a
    second and the second before a third, it puts the first before the
    third.  With X9, it orders files of pairwise different versions
    totally. *)
Theorem compareFiles_transitive (file1 file2 file3 : archive) :
  compareFiles file1 file2 = (-1)%Z ->
  compareFiles file2 file3 = (-1)%Z ->
  compareFiles file1 file3 = (-1)%Z.
Proof.
  rewrite !compareFiles_versions. apply versions_cmp_trans.
Qed.

Lemma compareFiles_transitive_witness :
  compareFiles (lin_archive "3.9.0.1") (lin_archive "3.10.0") = (-1)%Z.
Proof.
  exact (compareFiles_transitive (lin_archive "3.9.0.1") (lin_archive "3.9.0")
           (lin_archive "3.10.0") eq_refl eq_refl).
Defined.

(** ** The order of the script's effects *)

(** [apply_license] goes on only past the write of the header, and all it
    does before is console output. *)
Lemma apply_license_next (w : World) (fuel : nat) (tr0 tr : list event) :
  apply_license w fuel tr0 = Next tt tr ->
  exists logs data,
    tr = (tr0 ++ logs ++ [WriteFileSync (api_key_h w) data])%list /\
    Forall (fun e => exists msg, e = Log msg) logs /\
    throws w (WriteFileSync (api_key_h w) data) = false.
Proof.
  unfold apply_license, bind.
  destruct (search_loop_emits w (fun e => exists msg, e = Log msg) fuel
              (fun msg => ex_intro _ msg eq_refl) (dirname w) tr0)
    as (evs & Et & Hevs & _).
  destruct (search_loop w fuel (dirname w) tr0) as [p tr1 | st tr1];
    [| discriminate].
  cbn [trace] in Et. subst tr1. cbv beta iota delta [console_log].
  destruct (parse_license w p) as [licenses |]; [| discriminate].
  cbv beta iota delta [try ret]. rewrite select_license_key_name.
  unfold bind.
  destruct (get licenses "keys") as [keys |]; [| discriminate].
  cbv beta iota delta [try ret].
  destruct (get keys (key_name w)) as [license |]; [| discriminate].
  cbv beta iota delta [try ret when].
  destruct (truthy license); cbn [negb]; [| discriminate].
  cbv beta iota delta [ret].
  destruct (has_property "licensee" licenses) as [has |]; [| discriminate].
  cbv beta iota delta [try ret when console_log].
  destruct (get licenses "licensee") as [licensee |];
    [| destruct has; discriminate].
  destruct (apiKeyFileContents licensee license) as [contents |];
    [| destruct has; discriminate].
  unfold fs_call.
  destruct has; cbn [negb]; cbv beta iota delta [try ret].
  - destruct (throws w _) eqn:T; [discriminate |]. intros H.
    injection H as <-. eexists (evs ++ [Log _])%list. eexists.
    split; [rewrite <- !app_assoc; reflexivity |]. split; [| exact T].
    apply Forall_app. split; [exact Hevs |]. repeat constructor. eauto.
  - destruct (throws w _) eqn:T; [discriminate |]. intros H.
    injection H as <-. eexists (evs ++ [Log _; Log _])%list. eexists.
    split; [rewrite <- !app_assoc; reflexivity |].
    split; [| exact T].
    apply Forall_app. split; [exact Hevs |]. repeat constructor; eauto.
Qed.

Lemma main_body_next (w : World) (fuel : nat) (pending : script unit)
    (tr : list event) :
  main_body w fuel [] = Next pending tr ->
  exists tr0, provision_library w [] = Next pending tr0 /\
              apply_license w fuel tr0 = Next tt tr.
Proof.
  unfold main_body, bind.
  destruct (provision_library w []) as [p tr0 | st tr0]; [| discriminate].
  destruct (apply_license w fuel tr0) as [[] tr1 | st tr1] eqn:E;
    [| discriminate].
  cbv beta iota delta [ret]. intros H. injection H as <- <-.
  exists tr0. auto.
Qed.

Lemma main_body_keeps_names (w : World) (fuel : nat) :
  Forall keeps_names (trace (main_body w fuel [])).
Proof.
  assert (H : emits keeps_names (fun _ => True) (main_body w fuel)).
  { unfold main_body.
    apply emits_bind with (Q := fun _ => True).
    - eapply emits_weaken;
        [apply (provision_library_emits w keeps_names (fun _ => True));
         cbn; auto
        | auto].
    - intros pending _. apply emits_bind with (Q := fun _ => True).
      + apply apply_license_emits; cbn; auto.
      + intros _ _. apply emits_ret. exact I. }
  destruct (H []) as (evs & E & Hevs & _). rewrite E. exact Hevs.
Qed.

(** The handler [provision_library] leaves pending is one of four. *)
Lemma provision_library_pending (w : World) (pending : script unit)
    (tr : list event) :
  provision_library w [] = Next pending tr ->
  pending = ret tt \/ pending = throw \/ pending = process_exit 1 \/
  pending = rename_extracted w.
Proof.
  unfold provision_library.
  destruct (existsSync w libxlDir).
  - cbv beta iota delta [bind console_log ret]. intros H.
    injection H as <- _. auto.
  - unfold bind at 1.
    destruct (when _ _ []) as [[] tr0 | st tr0]; [| discriminate].
    unfold bind at 1, finder, bind at 1.
    destruct (try (readdirSync w dependencyArchiveDir) tr0)
      as [files tr1 | st tr1]; [| discriminate].
    cbv beta iota delta [ret]. unfold extractor, bind.
    destruct (option_map _ _) as [selectedArchive |];
      cbn [show_opt to_string try ret]; unfold console_log;
      destruct (isWin w); unfold execute;
      destruct (spawned w _ _) as [| | code]; try discriminate;
      intros H; injection H as <- _; auto;
      destruct (code =? 0)%Z; auto.
Qed.

(** X11. The extracted directory is renamed last of all, and only once
    the header has been written: a run either renames nothing, or it
    ends with the write of [src/api_key.h], the message about the rename,
    and the rename of the first entry of [deps] that starts with [libxl]
    to [deps/libxl].  A run that exits in the license step therefore
    leaves the extracted directory under its own name. *)
Theorem rename_comes_last (w : World) (fuel : nat) :
  Forall keeps_names (trace (install w fuel)) \/
  exists body data files name,
    trace (install w fuel) =
      (body ++
       [WriteFileSync (api_key_h w) data;
        Log ("Renaming " ++ show w (join dependencyDir name) ++ " to "
             ++ show w libxlDir ++ " ...");
        RenameSync (join dependencyDir name) libxlDir])%list /\
    Forall keeps_names body /\
    extracted w = Some files /\
    find (prefix "libxl") files = Some name.
Proof.
  pose proof (main_body_keeps_names w fuel) as K.
  unfold install, bind.
  destruct (main_body w fuel []) as [pending tr | st tr] eqn:M;
    [| left; exact K].
  cbn [trace] in K.
  destruct (main_body_next w fuel pending tr M) as (tr0 & P & A).
  destruct (apply_license_next w fuel tr0 tr A) as (logs & data & -> & _ & _).
  destruct (provision_library_pending w pending tr0 P)
    as [-> | [-> | [-> | ->]]]; try (left; exact K).
  unfold rename_extracted, finder, bind.
  destruct (extracted w) as [files |] eqn:X; cbv beta iota delta [try ret throw];
    [| left; exact K].
  destruct (find (prefix "libxl") files) as [name |] eqn:F;
    cbn [option_map show_opt to_string try ret];
    cbv beta iota delta [console_log].
  - right. exists (tr0 ++ logs)%list, data, files, name.
    split.
    + unfold fs_call. destruct (throws w _); cbn [trace];
        rewrite <- !app_assoc; reflexivity.
    + split; [| auto].
      rewrite app_assoc in K. apply Forall_app in K. apply K.
  - left. cbn [trace]. apply Forall_app. split; [exact K |].
    repeat constructor.
Qed.

(** X12. When the extractor closes with an exit code other than 0, the
    run ends with exit code 1 and renames nothing; by then the script's
    main body has run, so the header written by it stays in place. *)
Theorem failed_extraction_exits (w : World) (fuel : nat)
    (files : list string) (code : Z) (pending : script unit)
    (tr : list event) :
  existsSync w libxlDir = false ->
  readdirSync w dependencyArchiveDir = Some files ->
  (forall cmd args, spawned w cmd args = Closes code) ->
  code <> 0%Z ->
  main_body w fuel [] = Next pending tr ->
  install w fuel = Halt (Exit 1) tr /\
  Forall keeps_names tr /\
  exists body data, tr = (body ++ [WriteFileSync (api_key_h w) data])%list.
Proof.
  intros Habsent Hlist Hspawn Hcode M.
  pose proof (main_body_keeps_names w fuel) as K. rewrite M in K.
  destruct (main_body_next w fuel pending tr M) as (tr0 & P & A).
  destruct (apply_license_next w fuel tr0 tr A) as (logs & data & E & _ & _).
  assert (Hp : pending = process_exit 1).
  { revert P. unfold provision_library. rewrite Habsent.
    unfold bind at 1.
    destruct (when _ _ []) as [[] tr1 | st tr1]; [| discriminate].
    unfold bind at 1, finder, bind at 1. rewrite Hlist.
    cbv beta iota delta [try ret]. unfold extractor, bind.
    apply Z.eqb_neq in Hcode.
    destruct (option_map _ _) as [selectedArchive |];
      cbn [show_opt to_string try ret]; unfold console_log;
      destruct (isWin w); unfold execute; rewrite Hspawn, Hcode;
      intros H; injection H as <- _; reflexivity. }
  split; [| split; [exact K |]].
  - unfold install, bind. rewrite M, Hp. reflexivity.
  - exists (tr0 ++ logs)%list, data. rewrite E, app_assoc. reflexivity.
Qed.

Lemma failed_extraction_exits_witness :
  install failing_extractor 4 =
    Halt (Exit 1)
      [MkdirSync (Rel ["deps"]);
       Log "Extracting deps_archive/libxl-lin-3.6.5.0.tar.gz ...";
       Spawn "tar"
         [VStr "-C"; VStr "deps"; VStr "--no-same-owner"; VStr "-zxf";
          VStr "deps_archive/libxl-lin-3.6.5.0.tar.gz"];
       Log ("Applying licenses from " ++ DQ ++ "/home/libxl-license.json" ++ DQ);
       WriteFileSync (Abs ["home"; "dev"; "node-libxl"; "src"; "api_key.h"])
         ("#define INCLUDE_API_KEY 1" ++ LF ++
          "#define API_KEY_NAME " ++ DQ ++ "Acme Inc" ++ DQ ++ LF ++
          "#define API_KEY_KEY " ++ DQ ++ "linux-key" ++ DQ ++ LF)].
Proof.
  exact (proj1 (failed_extraction_exits failing_extractor 4
                  ["README"; "libxl-lin-3.6.5.0.tar.gz";
                   "libxl-mac-3.6.5.0.tar.gz"] 2 (process_exit 1) _
                  eq_refl eq_refl (fun _ _ => eq_refl) ltac:(discriminate)
                  eq_refl)).
Defined.

(** X13. With [deps/libxl] absent, a [deps_archive] directory without an
    archive for the platform does not stop the script: [finder] returns
    [null], the script logs that it extracts [null] and starts the
    extractor with [null] in place of the file name.  A [deps_archive]
    that cannot be listed ends the run with an uncaught exception before
    anything is extracted or written. *)
Theorem missing_archive (w : World) (fuel : nat) :
  existsSync w libxlDir = false ->
  existsSync w dependencyDir = true ->
  (forall files,
      readdirSync w dependencyArchiveDir = Some files ->
      find (prefix ("libxl-" ++ archive_suffix w)) files = None ->
      exists rest,
        trace (install w fuel) =
          (Log "Extracting null ..." ::
           (if isWin w then
              Spawn (show w (Rel ["tools"; "7zip"; "7za.exe"]))
                    [VStr "x"; VNull; VStr ("-o" ++ show w dependencyDir)]
            else
              Spawn "tar"
                    [VStr "-C"; VStr (show w dependencyDir);
                     VStr "--no-same-owner"; VStr "-zxf"; VNull]) :: rest)) /\
  (readdirSync w dependencyArchiveDir = None ->
   install w fuel = Halt Uncaught []).
Proof.
  intros Habsent Hdeps. split.
  - intros files Hlist Hfind.
    destruct (install_extends_provision w fuel) as (evs & E). rewrite E.
    unfold provision_library. rewrite Habsent, Hdeps.
    unfold archive_suffix in Hfind.
    cbv beta iota delta [negb when bind ret finder]. rewrite Hlist.
    cbv beta iota delta [try ret bind]. rewrite Hfind.
    unfold extractor, execute, bind.
    cbn [option_map show_opt to_string try ret]. unfold console_log.
    destruct (isWin w); destruct (spawned w _ _); cbn [trace app];
      eexists; reflexivity.
  - intros Hlist. unfold install, main_body, bind, provision_library.
    rewrite Habsent, Hdeps.
    cbv beta iota delta [negb when bind ret finder]. rewrite Hlist.
    reflexivity.
Qed.

Lemma missing_archive_witness :
  (exists rest,
     trace (install no_platform_archive 4) =
       Log "Extracting null ..." ::
       Spawn "tar" [VStr "-C"; VStr "deps"; VStr "--no-same-owner";
                    VStr "-zxf"; VNull] :: rest) /\
  install no_archive_dir 4 = Halt Uncaught [].
Proof.
  split.
  - exact (proj1 (missing_archive no_platform_archive 4 eq_refl eq_refl)
             ["README"; "libxl-mac-3.6.5.0.tar.gz"] eq_refl eq_refl).
  - exact (proj2 (missing_archive no_archive_dir 4 eq_refl eq_refl) eq_refl).
Defined.

(** ** Synchronous and asynchronous methods of [Book] *)

(** X15. Each synchronous method makes the same native call as its
    asynchronous counterpart: both leave the native library in the same
    state; the synchronous method throws the library's error exactly when
    the worker's [Execute] raises it, and otherwise returns the values the
    worker has for its callback (the receiver when there are none, type
    and data as one object for a picture).  A first argument of
    [addPicture] that is neither a string nor a buffer is a TypeError in
    both. *)
Theorem sync_agrees_with_async {B : Type} {libxl : Libxl B} (r : request)
    (that : B) :
  match queue r with
  | Return wk =>
      snd (synchronous r that) = snd (Execute wk that) /\
      snd (synchronous r that) = native_after r that /\
      match fst (synchronous r that), fst (Execute wk that) with
      | ThrowLibxlError that', Raised _ =>
          that' = native_after r that /\ native_failed r that = true
      | Returns v, Done _ =>
          as_results v = native_results r that /\
          native_failed r that = false
      | _, _ => False
      end
  | ThrowTypeError message =>
      synchronous r that = (ThrowType message, that)
  | ThrowError _ => False
  end.
Proof.
  destruct r as [f | f | | b | i | [ | | | | | ]]; cbn [queue synchronous];
    unfold LoadSync, WriteSync, WriteRawSync, LoadRawSync, GetPicture,
      AddPicture; cbn [Execute Load_Worker Write_Worker WriteRaw_Worker
                       LoadRaw_Worker GetPictureAsync_Worker FileWorker
                       BufferWorker native_failed native_after native_results];
    try reflexivity.
  - destruct (load f that) as [[] that']; cbn; auto.
  - destruct (save f that) as [[] that']; cbn; auto.
  - destruct (saveRaw that) as [[[] data] that']; cbn; auto.
  - destruct (loadRaw b that) as [[] that']; cbn; auto.
  - destruct (getPicture i that) as [[t data] that']; cbn.
    destruct (t =? PICTURETYPE_ERROR)%Z; cbn; auto.
  - destruct (addPicture2 data that) as [index that']; cbn.
    destruct (index =? -1)%Z; cbn; auto.
  - destruct (addPicture s that) as [index that']; cbn.
    destruct (index =? -1)%Z; cbn; auto.
Qed.

Lemma sync_agrees_with_async_witness :
  snd (synchronous (libxl := recorder) WriteRaw []) =
    snd (Execute (WriteRaw_Worker (libxl := recorder)) []) /\
  as_results (Value (Buffer [Byte.x50; Byte.x4b])) =
    native_results (libxl := recorder) WriteRaw [].
Proof.
  pose proof (sync_agrees_with_async (libxl := recorder) WriteRaw []) as H.
  cbn [queue] in H. destruct H as (H1 & _ & H3).
  split; [exact H1 | exact (proj1 H3)].
Defined.

(** ** Where a written header comes from *)

Lemma only_logs_no_write (tr0 logs : list event) (p : path) (data : string) :
  Forall (fun e => is_write e = false) tr0 ->
  Forall (fun e => exists msg, e = Log msg) logs ->
  ~ In (WriteFileSync p data) (tr0 ++ logs).
Proof.
  intros H0 Hl Hin. apply in_app_or in Hin. destruct Hin as [Hin | Hin].
  - rewrite Forall_forall in H0. specialize (H0 _ Hin). discriminate.
  - rewrite Forall_forall in Hl. destruct (Hl _ Hin) as (msg & E).
    discriminate.
Qed.

Lemma apply_license_write (w : World) (fuel : nat) (tr0 : list event)
    (p : path) (data : string) :
  (length (dirname w) < fuel)%nat ->
  Forall (fun e => is_write e = false) tr0 ->
  In (WriteFileSync p data) (trace (apply_license w fuel tr0)) ->
  p = api_key_h w /\
  exists licensePath licenses keys license licensee,
    locate w (dirname w) = Some licensePath /\
    parse_license w licensePath = Some licenses /\
    get licenses "keys" = Some keys /\
    get keys (key_name w) = Some license /\
    truthy license = true /\
    get licenses "licensee" = Some licensee /\
    apiKeyFileContents licensee license = Some data.
Proof.
  intros Hfuel H0.
  assert (L1 : forall m, Forall (fun e => exists msg, e = Log msg) [Log m])
    by (intros; repeat constructor; eauto).
  assert (L2 : forall m m',
             Forall (fun e => exists msg, e = Log msg) [Log m; Log m'])
    by (intros; repeat constructor; eauto).
  unfold apply_license, bind.
  rewrite (search_loop_locate _ _ _ _ Hfuel).
  destruct (locate w (dirname w)) as [licensePath |] eqn:Hloc;
    [| cbn [trace]; intros Hin;
       exfalso; exact (only_logs_no_write _ _ _ _ H0 (L1 _) Hin)].
  cbv beta iota delta [console_log].
  destruct (parse_license w licensePath) as [licenses |] eqn:Hparse;
    cbv beta iota delta [try ret throw];
    [| cbn [trace]; intros Hin;
       exfalso; exact (only_logs_no_write _ _ _ _ H0 (L1 _) Hin)].
  rewrite select_license_key_name. unfold bind.
  destruct (get licenses "keys") as [keys |] eqn:Hkeys;
    cbv beta iota delta [try ret throw];
    [| cbn [trace]; intros Hin;
       exfalso; exact (only_logs_no_write _ _ _ _ H0 (L1 _) Hin)].
  destruct (get keys (key_name w)) as [license |] eqn:Hkey;
    cbv beta iota delta [try ret throw];
    [| cbn [trace]; intros Hin;
       exfalso; exact (only_logs_no_write _ _ _ _ H0 (L1 _) Hin)].
  destruct (truthy license) eqn:Htruthy;
    cbv beta iota delta [negb when ret bind console_log process_exit];
    [| cbn [trace]; rewrite <- app_assoc; intros Hin;
       exfalso; exact (only_logs_no_write _ _ _ _ H0 (L2 _ _) Hin)].
  destruct (has_property "licensee" licenses) as [has |];
    cbv beta iota delta [try ret throw];
    [| cbn [trace]; intros Hin;
       exfalso; exact (only_logs_no_write _ _ _ _ H0 (L1 _) Hin)].
  assert (Hend : forall tr q d,
             Forall (fun e => exists msg, e = Log msg) tr ->
             In (WriteFileSync p data)
                (trace (fs_call w (WriteFileSync q d) (tr0 ++ tr)%list)) ->
             p = q /\ data = d).
  { intros tr q d Htr Hin.
    assert (Hin' : In (WriteFileSync p data)
                      ((tr0 ++ tr) ++ [WriteFileSync q d])%list)
      by (unfold fs_call in Hin; destruct (throws w _); exact Hin).
    apply in_app_or in Hin'. destruct Hin' as [Hin' | [Hin' | []]].
    - exfalso. exact (only_logs_no_write _ _ _ _ H0 Htr Hin').
    - injection Hin' as -> ->. auto. }
  destruct has; cbv beta iota delta [negb when ret console_log];
    (destruct (get licenses "licensee") as [licensee |] eqn:Hlic;
     cbv beta iota delta [try ret throw];
     [| cbn [trace]; rewrite <- ?app_assoc; intros Hin; exfalso;
        first [exact (only_logs_no_write _ _ _ _ H0 (L1 _) Hin)
              | exact (only_logs_no_write _ _ _ _ H0 (L2 _ _) Hin)]]);
    (destruct (apiKeyFileContents licensee license) as [contents |] eqn:Hcontents;
     cbv beta iota delta [try ret throw];
     [| cbn [trace]; rewrite <- ?app_assoc; intros Hin; exfalso;
        first [exact (only_logs_no_write _ _ _ _ H0 (L1 _) Hin)
              | exact (only_logs_no_write _ _ _ _ H0 (L2 _ _) Hin)]]).
  - intros Hin. destruct (Hend _ _ _ (L1 _) Hin) as [-> ->].
    split; [reflexivity |]. exists licensePath, licenses, keys, license, licensee.
    repeat split; auto.
  - rewrite <- app_assoc. intros Hin.
    destruct (Hend _ _ _ (L2 _ _) Hin) as [-> ->].
    split; [reflexivity |]. exists licensePath, licenses, keys, license, licensee.
    repeat split; auto.
Qed.

(** X14. A header is written only from a license: whenever a run writes
    a file at all, the file is [src/api_key.h] next to the script and its
    text is built from the license file of the nearest directory, from
    the script's directory upwards, that has one, with that file's
    [licensee] and its key for the platform, and that key is truthy. *)
Theorem header_provenance (w : World) (fuel : nat) (p : path)
    (data : string) :
  (length (dirname w) < fuel)%nat ->
  In (WriteFileSync p data) (trace (install w fuel)) ->
  p = api_key_h w /\
  exists licensePath licenses keys license licensee,
    locate w (dirname w) = Some licensePath /\
    parse_license w licensePath = Some licenses /\
    get licenses "keys" = Some keys /\
    get keys (key_name w) = Some license /\
    truthy license = true /\
    get licenses "licensee" = Some licensee /\
    apiKeyFileContents licensee license = Some data.
Proof.
  intros Hfuel. unfold install, main_body, bind.
  destruct (provision_library_emits w (fun e => is_write e = false)
              (fun e => is_write e = false)
              (fun _ => eq_refl) eq_refl (fun _ _ => eq_refl)
              (fun _ => eq_refl) (fun _ _ => eq_refl) [])
    as (evs0 & E0 & H0 & Hp).
  destruct (provision_library w []) as [pending tr0 | st tr0];
    cbn [trace app] in E0; subst tr0.
  - pose proof (apply_license_write w fuel evs0 p data Hfuel H0) as A.
    destruct (apply_license_emits w (fun _ => True) fuel
                (fun _ => I) (fun _ => I) evs0) as (evs1 & E1 & _).
    destruct (apply_license w fuel evs0) as [[] tr1 | st tr1];
      cbn [trace] in *; [| exact A].
    cbv beta iota delta [ret].
    destruct (Hp pending evs0 eq_refl tr1) as (evs2 & E2 & H2 & _).
    rewrite E2. intros Hin. apply in_app_or in Hin.
    destruct Hin as [Hin | Hin]; [exact (A Hin) |].
    rewrite Forall_forall in H2. specialize (H2 _ Hin). discriminate.
  - intros Hin. rewrite Forall_forall in H0. specialize (H0 _ Hin).
    discriminate.
Qed.

Lemma header_provenance_witness :
  Abs ["home"; "dev"; "node-libxl"; "src"; "api_key.h"] =
    api_key_h (checkout true acme) /\
  exists licensePath licenses keys license licensee,
    locate (checkout true acme) ["home"; "dev"; "node-libxl"]
      = Some licensePath /\
    parse_license (checkout true acme) licensePath = Some licenses /\
    get licenses "keys" = Some keys /\
    get keys "linux" = Some license /\
    truthy license = true /\
    get licenses "licensee" = Some licensee /\
    apiKeyFileContents licensee license =
      Some ("#define INCLUDE_API_KEY 1" ++ LF ++
            "#define API_KEY_NAME " ++ DQ ++ "Acme Inc" ++ DQ ++ LF ++
            "#define API_KEY_KEY " ++ DQ ++ "linux-key" ++ DQ ++ LF).
Proof.
  exact (header_provenance (checkout true acme) 4
           (Abs ["home"; "dev"; "node-libxl"; "src"; "api_key.h"])
           ("#define INCLUDE_API_KEY 1" ++ LF ++
            "#define API_KEY_NAME " ++ DQ ++ "Acme Inc" ++ DQ ++ LF ++
            "#define API_KEY_KEY " ++ DQ ++ "linux-key" ++ DQ ++ LF)
           ltac:(simpl; lia)
           (or_intror (or_intror (or_introl eq_refl)))).
Defined.
